(** * zk-slot-soundness: a shallow embedding of [application.py]

    The script reads a list of storage slots from two RPC endpoints,
    compares the two label-to-value maps and derives the process exit
    code.  This file embeds its functions and proves the properties the
    specification states about them.

    Modelling conventions.
    - A Python [str] is a [string] of 8-bit characters.  The embedding of
      [str.strip], [str.lower] and [int(_, 16)] is the one Python has on
      ASCII text; a character above 127 is an ordinary character that is
      neither white space nor a digit.  Python compares strings by code
      point, which on UTF-8 encoded text is the byte-wise order
      [String.le] used here.
    - A Python [int] is a [Z].
    - A [dict] from labels to values is a [gmap string string]; the set
      of its keys is its [dom].
    - Exceptions are values of [exn] carried by [result]; the effects of
      [main] (opening the manifest, probing an endpoint, reading a storage
      word) are recorded in a trace of [event]s that the functions thread
      as state. *)

From Stdlib Require Import ZArith String Ascii List Bool Lia.
From stdpp Require Import base gmap sets list strings sorting.

Set Warnings "-register-all".

Local Open Scope string_scope.
Local Open Scope list_scope.
Local Open Scope Z_scope.

(** ** Characters and the [str] methods the script calls *)

Module PyStr.

Definition code (c : ascii) : N := N_of_ascii c.

Definition in_range (lo hi : N) (c : ascii) : bool :=
  ((lo <=? code c) && (code c <=? hi))%N.

(** [str.isspace] on ASCII: tab .. carriage return, the four separators
    28 .. 31, and the space. *)
Definition is_space (c : ascii) : bool :=
  in_range 9 13 c || in_range 28 32 c.

(** The C locale's [isspace], which [int] uses on an ASCII string. *)
Definition is_c_space (c : ascii) : bool :=
  in_range 9 13 c || (code c =? 32)%N.

Definition lower_char (c : ascii) : ascii :=
  if in_range 65 90 c then ascii_of_N (code c + 32) else c.

Fixpoint lower (s : string) : string :=
  match s with
  | EmptyString => EmptyString
  | String c s' => String (lower_char c) (lower s')
  end.

Fixpoint lstrip (s : string) : string :=
  match s with
  | EmptyString => EmptyString
  | String c s' => if is_space c then lstrip s' else s
  end.

Fixpoint rstrip (s : string) : string :=
  match s with
  | EmptyString => EmptyString
  | String c s' =>
      match rstrip s' with
      | EmptyString => if is_space c then EmptyString else String c EmptyString
      | r => String c r
      end
  end.

Definition strip (s : string) : string := rstrip (lstrip s).

Definition startswith (s p : string) : bool := String.prefix p s.



(** [sep in s] and [s.split(sep, 1)] for a one-character separator:
    [None] when the separator does not occur, otherwise the text before
    and after its first occurrence. *)
Fixpoint split_once (sep : ascii) (s : string) : option (string * string) :=
  match s with
  | EmptyString => None
  | String c s' =>
      if Ascii.eqb c sep then Some (EmptyString, s')
      else match split_once sep s' with
           | Some (l, r) => Some (String c l, r)
           | None => None
           end
  end.

End PyStr.

(** ** [int(s, 16)] *)

Module PyInt.
Import PyStr.

(** The value of a character as a digit below sixteen. *)
Definition digit_value (c : ascii) : option Z :=
  if in_range 48 57 c then Some (Z.of_N (code c) - 48)
  else if in_range 97 102 c then Some (Z.of_N (code c) - 87)
  else if in_range 65 70 c then Some (Z.of_N (code c) - 55)
  else None.

Definition is_underscore (c : ascii) : bool := Ascii.eqb c "_".

Fixpoint skip_space (s : string) : string :=
  match s with
  | EmptyString => EmptyString
  | String c s' => if is_c_space c then skip_space s' else s
  end.

(** The digit loop: digits and underscores are consumed, two underscores
    in a row or an underscore before the end of the digits are a syntax
    error ([None]).  [prev] tells that the previous character was an
    underscore, [digits] counts the digits seen, and the result holds the
    accumulated value, the digit count and the text left over. *)
Fixpoint scan (s : string) (prev : bool) (digits : nat) (acc : Z)
  : option (Z * nat * string) :=
  match s with
  | EmptyString => if prev then None else Some (acc, digits, EmptyString)
  | String c s' =>
      if is_underscore c then
        if prev then None else scan s' true digits acc
      else
        match digit_value c with
        | Some d => scan s' false (S digits) (16 * acc + d)
        | None => if prev then None else Some (acc, digits, s)
        end
  end.

Definition strip_sign (s : string) : bool * string :=
  match s with
  | String "+" s' => (false, s')
  | String "-" s' => (true, s')
  | _ => (false, s)
  end.

(** After an optional ["0x"] or ["0X"] one underscore is allowed. *)
Definition strip_prefix (s : string) : string :=
  match s with
  | String "0" (String c s') =>
      if Ascii.eqb c "x" || Ascii.eqb c "X" then
        match s' with
        | String u s'' => if is_underscore u then s'' else s'
        | EmptyString => s'
        end
      else s
  | _ => s
  end.

Definition starts_with_underscore (s : string) : bool :=
  match s with
  | String c _ => is_underscore c
  | EmptyString => false
  end.

Definition int16 (s : string) : option Z :=
  let '(neg, body) := strip_sign (skip_space s) in
  let start := strip_prefix body in
  if starts_with_underscore start then None
  else
    match scan start false 0 0 with
    | None => None
    | Some (v, digits, rest) =>
        if Nat.eqb digits 0 then None
        else match skip_space rest with
             | EmptyString => Some (if neg then - v else v)
             | _ => None
             end
    end.

End PyInt.

(** ** Exceptions *)

Inductive exn : Type :=
| ValueError (msg : string)
| AttributeError            (* [raw.strip()] on a manifest entry that is not a [str] *)
| LoadError (path : string) (* [open] or [json.load] failed on the manifest *).

Inductive result (A : Type) : Type :=
| Ok (a : A)
| Raise (e : exn).
Arguments Ok {A} a.
Arguments Raise {A} e.

Definition is_ok {A} (r : result A) : bool :=
  match r with Ok _ => true | Raise _ => false end.

(** ** [parse_slot_hex] *)

Definition parse_slot_hex (raw : string) : result Z :=
  let s := PyStr.lower (PyStr.strip raw) in
  if negb (PyStr.startswith s "0x") then
    Raise (ValueError ("Slot must be 0x-prefixed hex: " +:+ raw))
  else
    match PyInt.int16 s with
    | Some v => Ok v
    | None => Raise (ValueError ("Invalid slot hex: " +:+ raw))
    end.

(** ** Data model *)

(** [Slot = Tuple[str, int]]: a label and a slot index. *)
Abbreviation Slot := (string * Z)%type.

(** What [json.load] returns. A [JDict] lists the items of the resulting
    [dict] in insertion order. *)
Inductive json : Type :=
| JNull
| JBool (b : bool)
| JInt (n : Z)
| JFloat (text : string)
| JStr (s : string)
| JList (l : list json)
| JDict (items : list (string * json)).

(** The [argparse.Namespace] built by [parse_args]; [--slot] uses
    [action="append"], so it is [None] when the flag never occurs. *)
Record Args : Type := {
  address : string;
  rpc_a : string;
  rpc_b : string;
  block_a : string;
  block_b : string;
  slot : option (list string);
  manifest : option string;
  timeout : Z;
  json_flag : bool
}.

(** The two endpoints. *)
Inductive side : Type := EndA | EndB.

Inductive event : Type :=
| EOpen (path : string)
| EConnect (s : side)
| ERead (s : side) (addr : string) (idx : Z) (block_id : string).

Definition trace : Type := list event.

Definition is_read (e : event) : bool :=
  match e with ERead _ _ _ _ => true | _ => false end.

(** What an endpoint answers to a storage read. *)
Inductive response : Type :=
| Value (hex : string)
| Failure (msg : string).

(** Everything outside the script: the address predicate and checksum of
    the Web3 library, the file system, and the two endpoints, whose answer
    to a read may depend on all that happened before it. *)
Record world : Type := {
  w_is_address : string -> bool;
  w_checksum : string -> string;
  w_load : string -> option json;
  w_connected : side -> bool;
  w_storage : trace -> side -> string -> Z -> string -> response
}.

(** ** Exceptions and effects *)

Inductive raised : Type :=
| Exception (e : exn)
| RpcError (msg : string)   (* whatever the storage call raised *)
| SystemExit (code : Z).

(** [str(e)] *)
Definition exn_str (r : raised) : string :=
  match r with
  | Exception (ValueError msg) => msg
  | Exception AttributeError => "object has no attribute 'strip'"
  | Exception (LoadError path) => path
  | RpcError msg => msg
  | SystemExit _ => ""
  end.

Definition M (A : Type) : Type := trace -> (A + raised) * trace.

Definition ret {A} (a : A) : M A := fun t => (inl a, t).

Definition bind {A B} (m : M A) (f : A -> M B) : M B :=
  fun t => match m t with
           | (inl a, t') => f a t'
           | (inr r, t') => (inr r, t')
           end.

Definition throw {A} (r : raised) : M A := fun t => (inr r, t).

Definition emit (e : event) : M unit := fun t => (inl tt, t ++ [e]).

Definition lift {A} (r : result A) : M A :=
  match r with
  | Ok a => ret a
  | Raise e => throw (Exception e)
  end.

(** [try: body except Exception as e: handler(e)]; [SystemExit] does not
    derive from [Exception] and passes through. *)
Definition try_except {A} (body : M A) (handler : raised -> M A) : M A :=
  fun t => match body t with
           | (inl a, t') => (inl a, t')
           | (inr (SystemExit c), t') => (inr (SystemExit c), t')
           | (inr r, t') => handler r t'
           end.

Definition sys_exit {A} (code : Z) : M A := throw (SystemExit code).

Declare Scope py_scope.
Delimit Scope py_scope with py.
Notation "x <- c1 ;; c2" := (bind c1 (fun x => c2))
  (at level 100, c1 at next level, right associativity) : py_scope.
Notation "c1 ;;; c2" := (bind c1 (fun _ => c2))
  (at level 100, right associativity) : py_scope.
Local Open Scope py_scope.

(** ** [to_checksum] *)

Definition to_checksum (w : world) (addr : string) : result string :=
  if negb (w_is_address w addr) then
    Raise (ValueError ("Invalid Ethereum address: " +:+ addr))
  else Ok (w_checksum w addr).

(** ** [parse_slots] *)

Definition truthy_list {A} (o : option (list A)) : bool :=
  match o with Some (_ :: _) => true | _ => false end.

Definition truthy_str (o : option string) : bool :=
  match o with Some (String _ _) => true | _ => false end.

(** One [--slot] item: ["label:0xSLOT"] or just ["0xSLOT"]. *)
Definition slot_of_item (item : string) : result Slot :=
  let '(label, raw) :=
    match PyStr.split_once ":" item with
    | Some (l, r) => (l, r)
    | None => (item, item)
    end in
  match parse_slot_hex raw with
  | Ok idx => Ok (label, idx)
  | Raise e => Raise e
  end.

(** The three loops of [parse_slots] have one shape:
    [for x in items: slots.append(f(x))], left by the first exception. *)
Fixpoint append_each {A} (f : A -> result Slot) (items : list A) (slots : list Slot)
  : result (list Slot) :=
  match items with
  | [] => Ok slots
  | x :: rest =>
      match f x with
      | Ok s => append_each f rest (slots ++ [s])
      | Raise e => Raise e
      end
  end.

(** An entry of the manifest reaches [parse_slot_hex] as it is; anything
    but a [str] has no [strip]. *)
Definition parse_slot_hex_json (raw : json) : result Z :=
  match raw with
  | JStr s => parse_slot_hex s
  | _ => Raise AttributeError
  end.

(** [(raw, parse_slot_hex(raw))] for an element of a manifest list. *)
Definition slot_of_element (raw : json) : result Slot :=
  match parse_slot_hex_json raw with
  | Ok idx =>
      match raw with
      | JStr s => Ok (s, idx)
      | _ => Raise AttributeError
      end
  | Raise e => Raise e
  end.

(** [(label, parse_slot_hex(raw))] for an item of a manifest mapping. *)
Definition slot_of_entry (entry : string * json) : result Slot :=
  let '(label, raw) := entry in
  match parse_slot_hex_json raw with
  | Ok idx => Ok (label, idx)
  | Raise e => Raise e
  end.

(** [open(path)] followed by [json.load]. *)
Definition load_manifest (w : world) (path : string) : M json :=
  emit (EOpen path) ;;;
  match w_load w path with
  | Some data => ret data
  | None => throw (Exception (LoadError path))
  end.

Definition parse_slots (w : world) (args : Args) : M (list Slot) :=
  if truthy_list (slot args) then
    lift (append_each slot_of_item (default [] (slot args)) [])
  else if truthy_str (manifest args) then
    data <- load_manifest w (default "" (manifest args)) ;;
    match data with
    | JList l => lift (append_each slot_of_element l [])
    | JDict items => lift (append_each slot_of_entry items [])
    | _ => throw (Exception (ValueError
             "Manifest must be a list of 0x-hex slots or a mapping label -> 0x-hex slot."))
    end
  else
    throw (Exception (ValueError
      "No slots provided. Use --slot (repeatable) or --manifest JSON file.")).

(** ** [get_storage_at] and [read_slots] *)

Definition get_storage_at (w : world) (w3 : side) (addr : string) (idx : Z)
    (block_id : string) : M string :=
  fun t =>
    (match w_storage w t w3 addr idx block_id with
     | Value hex => inl hex
     | Failure msg => inr (RpcError msg)
     end, t ++ [ERead w3 addr idx block_id]).

Fixpoint read_slots_loop (w : world) (w3 : side) (addr block_id : string)
    (slots : list Slot) (out : gmap string string) : M (gmap string string) :=
  match slots with
  | [] => ret out
  | (label, idx) :: rest =>
      out' <- try_except
                (v <- get_storage_at w w3 addr idx block_id ;; ret (<[label := v]> out))
                (fun e => ret (<[label := "ERROR:" +:+ exn_str e]> out)) ;;
      read_slots_loop w w3 addr block_id rest out'
  end.

Definition read_slots (w : world) (w3 : side) (addr block_id : string)
    (slots : list Slot) : M (gmap string string) :=
  read_slots_loop w w3 addr block_id slots ∅.

(** ** [compare] *)

Definition MISSING : string := "MISSING".

(** [d.get(k, dflt)] *)
Definition get (d : gmap string string) (k dflt : string) : string :=
  default dflt (d !! k).

(** [sorted] on strings. *)
Definition sorted (l : list string) : list string := merge_sort String.le l.

Fixpoint compare_loop (keys : list string) (a b : gmap string string)
    (diffs : list (string * string * string)) (ok : bool)
  : list (string * string * string) * bool :=
  match keys with
  | [] => (diffs, ok)
  | k :: rest =>
      let va := get a k MISSING in
      let vb := get b k MISSING in
      if bool_decide (va <> vb) then compare_loop rest a b (diffs ++ [(k, va, vb)]) false
      else compare_loop rest a b diffs ok
  end.

Definition compare (a b : gmap string string) : list (string * string * string) * bool :=
  let keys := sorted (elements (dom a ∪ dom b)) in
  compare_loop keys a b [] true.

(** ** [main] *)

Fixpoint validate_urls (urls : list (string * string)) : M unit :=
  match urls with
  | [] => ret tt
  | (url, name) :: rest =>
      if negb (PyStr.startswith url "http://" || PyStr.startswith url "https://")
      then sys_exit 1
      else validate_urls rest
  end.

Definition is_connected (w : world) (w3 : side) : M bool :=
  emit (EConnect w3) ;;; ret (w_connected w w3).

(** The per-slot display loop: the printed lines and the mismatch count. *)
Fixpoint report_loop (slots : list Slot) (a_vals b_vals : gmap string string)
    (lines : list (string * string * string * bool)) (mismatches : nat)
  : list (string * string * string * bool) * nat :=
  match slots with
  | [] => (lines, mismatches)
  | (lbl, _) :: rest =>
      let va := get a_vals lbl MISSING in
      let vb := get b_vals lbl MISSING in
      let status := bool_decide (va = vb) in
      report_loop rest a_vals b_vals (lines ++ [(lbl, va, vb, status)])
        (if bool_decide (va <> vb) then S mismatches else mismatches)
  end.

(** The printed text and the chain-id lookups do not influence the control
    flow and are left out; [sys.exit] ends every path. *)
Definition main (w : world) (args : Args) : M unit :=
  validate_urls [(rpc_a args, "RPC A"); (rpc_b args, "RPC B")] ;;;
  checked <- try_except
               (addr <- lift (to_checksum w (address args)) ;;
                slots <- parse_slots w args ;;
                ret (addr, slots))
               (fun e => sys_exit 1) ;;
  let '(addr, slots) := checked in
  ca <- is_connected w EndA ;;
  if negb ca then sys_exit 1 else
  cb <- is_connected w EndB ;;
  if negb cb then sys_exit 1 else
  a_vals <- read_slots w EndA addr (block_a args) slots ;;
  b_vals <- read_slots w EndB addr (block_b args) slots ;;
  let mismatches := snd (report_loop slots a_vals b_vals [] 0) in
  sys_exit (if Nat.eqb mismatches 0 then 0 else 2).

(** The exit status of the process: that of [sys.exit], 0 on a normal
    return and 1 on an exception nobody caught. *)
Definition exit_code (r : (unit + raised) * trace) : Z :=
  match fst r with
  | inl _ => 0
  | inr (SystemExit c) => c
  | inr _ => 1
  end.

Definition run (w : world) (args : Args) : (unit + raised) * trace := main w args [].

(** ** Hexadecimal text, as the specification reads it

    These definitions are not taken from the script: they say what a
    hexadecimal payload and its value are, to be compared with what
    [parse_slot_hex] accepts and returns. *)

Module HexText.

Definition digits_lower : string := "0123456789abcdef".
Definition digits_upper : string := "0123456789ABCDEF".

Fixpoint index_of (c : ascii) (s : string) : option nat :=
  match s with
  | EmptyString => None
  | String d s' => if Ascii.eqb c d then Some 0%nat else S <$> index_of c s'
  end.

(** A hexadecimal digit is worth its position in the digit string. *)
Definition hex_digit (c : ascii) : option Z :=
  match index_of c digits_lower with
  | Some i => Some (Z.of_nat i)
  | None => Z.of_nat <$> index_of c digits_upper
  end.

Definition is_hex_digit (c : ascii) : bool :=
  match hex_digit c with Some _ => true | None => false end.

Fixpoint all_hex (s : string) : bool :=
  match s with
  | EmptyString => true
  | String c s' => is_hex_digit c && all_hex s'
  end.

Definition nonempty (s : string) : bool :=
  match s with EmptyString => false | String _ _ => true end.

(** Valid hexadecimal: one hexadecimal digit or more, nothing else. *)
Definition plain_hex (p : string) : bool := nonempty p && all_hex p.

Fixpoint remove_underscores (s : string) : string :=
  match s with
  | EmptyString => EmptyString
  | String c s' =>
      if Ascii.eqb c "_" then remove_underscores s'
      else String c (remove_underscores s')
  end.

Fixpoint has_double_underscore (s : string) : bool :=
  match s with
  | String a s' =>
      match s' with
      | String b _ => (Ascii.eqb a "_" && Ascii.eqb b "_") || has_double_underscore s'
      | EmptyString => false
      end
  | EmptyString => false
  end.

Fixpoint last_char (s : string) : option ascii :=
  match s with
  | EmptyString => None
  | String c s' =>
      match s' with
      | EmptyString => Some c
      | String _ _ => last_char s'
      end
  end.

Definition ends_with_underscore (s : string) : bool :=
  match last_char s with
  | Some c => Ascii.eqb c "_"
  | None => false
  end.

(** Hexadecimal digits in groups: single underscores may precede or
    separate the digits, none may follow them. *)
Definition grouped_hex (p : string) : bool :=
  negb (has_double_underscore p) && negb (ends_with_underscore p)
  && plain_hex (remove_underscores p).

(** The positional value of a string of digits, most significant first. *)
Fixpoint hex_value (s : string) : Z :=
  match s with
  | EmptyString => 0
  | String c s' =>
      default 0 (hex_digit c) * 16 ^ Z.of_nat (String.length s') + hex_value s'
  end.

Definition grouped_value (p : string) : Z := hex_value (remove_underscores p).

End HexText.

(** Two notions the proofs about the digit loop use: the text with the
    underscore the loop remembers put back in front, and the value of a
    digit string accumulated from the left. *)
Definition with_prev (prev : bool) (s : string) : string :=
  if prev then String "_" s else s.

Fixpoint hex_fold (acc : Z) (s : string) : Z :=
  match s with
  | EmptyString => acc
  | String c s' => hex_fold (16 * acc + default 0 (HexText.hex_digit c)) s'
  end.

(** What [int] does with the outcome of the digit loop. *)
Definition finish (r : option (Z * nat * string)) : option Z :=
  match r with
  | None => None
  | Some (v, digits, rest) =>
      if Nat.eqb digits 0 then None
      else match PyInt.skip_space rest with
           | EmptyString => Some v
           | _ => None
           end
  end.

(** How a [result] shows in the monad, and the manifest shapes
    [parse_slots] accepts. *)
Definition outcome {A} (r : result A) : A + raised :=
  match r with
  | Ok a => inl a
  | Raise e => inr (Exception e)
  end.

Definition is_list_or_dict (data : json) : bool :=
  match data with
  | JList _ | JDict _ => true
  | _ => false
  end.

Definition no_slots_msg : string :=
  "No slots provided. Use --slot (repeatable) or --manifest JSON file.".

Definition bad_manifest_msg : string :=
  "Manifest must be a list of 0x-hex slots or a mapping label -> 0x-hex slot.".

(** The event a read of a slot leaves in the trace, and the value
    [read_slots] stores for an answer. *)
Definition read_event (w3 : side) (addr block_id : string) (s : Slot) : event :=
  ERead w3 addr s.2 block_id.

Definition render (r : response) : string :=
  match r with
  | Value hex => hex
  | Failure msg => "ERROR:" +:+ msg
  end.

Definition labels (slots : list Slot) : list string := slots.*1.

(** The line the display loop prints for a slot, and whether the two
    values of a label differ. *)
Definition line_of (a_vals b_vals : gmap string string) (s : Slot)
  : string * string * string * bool :=
  (s.1, get a_vals s.1 MISSING, get b_vals s.1 MISSING,
   bool_decide (get a_vals s.1 MISSING = get b_vals s.1 MISSING)).

Definition differs (a b : gmap string string) (k : string) : Prop :=
  get a k MISSING <> get b k MISSING.

#[global] Instance differs_dec a b k : Decision (differs a b k).
Proof. unfold differs. apply _. Defined.

Definition diff_of (a b : gmap string string) (k : string) : string * string * string :=
  (k, get a k MISSING, get b k MISSING).

(** The URL test of [main]. *)
Definition url_ok (url : string) : bool :=
  PyStr.startswith url "http://" || PyStr.startswith url "https://".

(** The largest slot index plus one. *)
Definition two_256 : Z := 2 ^ 256.

(** ** [hex] and the slot list of the JSON report *)

(** The digit character of a value below sixteen, as [hex] prints it. *)
Definition hex_char (d : Z) : ascii :=
  match String.get (Z.to_nat d) HexText.digits_lower with
  | Some c => c
  | None => "0"%char
  end.

(** The digits of a non-negative integer, most significant first; [fuel]
    bounds the number of digits. *)
Fixpoint hex_digits_fuel (fuel : nat) (n : Z) : string :=
  match fuel with
  | O => EmptyString
  | S fuel' =>
      if n <? 16 then String (hex_char n) EmptyString
      else hex_digits_fuel fuel' (n / 16) +:+ String (hex_char (n mod 16)) EmptyString
  end.

Definition hex_digits (n : Z) : string :=
  hex_digits_fuel (S (Z.to_nat (Z.log2 n))) n.

(** [hex(n)] *)
Definition py_hex (n : Z) : string :=
  if n <? 0 then "-0x" +:+ hex_digits (- n) else "0x" +:+ hex_digits n.

(** [[{"label": lbl, "index": hex(idx)} for lbl, idx in slots]] *)
Definition slots_json (slots : list Slot) : list (string * string) :=
  (fun s : Slot => (s.1, py_hex s.2)) <$> slots.

(** ** Notions the further properties are stated with *)

Fixpoint all_space (s : string) : bool :=
  match s with
  | EmptyString => true
  | String c s' => PyStr.is_space c && all_space s'
  end.

Fixpoint has_char (c : ascii) (s : string) : bool :=
  match s with
  | EmptyString => false
  | String d s' => Ascii.eqb d c || has_char c s'
  end.

(** A mismatch triple with its two values exchanged. *)
Definition flip_diff (d : string * string * string) : string * string * string :=
  (d.1.1, d.2, d.1.2).

(** An endpoint pair whose answers depend neither on what happened before
    nor on the endpoint asked. *)
Definition stateless (w : world) : Prop :=
  forall t t' s s' addr idx block_id,
    w_storage w t s addr idx block_id = w_storage w t' s' addr idx block_id.

Definition is_connect (e : event) : bool :=
  match e with EConnect _ => true | _ => false end.

(** ** A world and arguments to run the script on *)

Definition quiet_world : world := {|
  w_is_address := fun _ => true;
  w_checksum := fun a => a;
  w_load := fun _ => None;
  w_connected := fun _ => true;
  w_storage := fun _ _ _ _ _ => Value "0x00"
|}.

Definition args_of_slots (items : list string) : Args := {|
  address := "0x0000000000000000000000000000000000000000";
  rpc_a := "http://a.example";
  rpc_b := "https://b.example";
  block_a := "latest";
  block_b := "latest";
  slot := Some items;
  manifest := None;
  timeout := 30;
  json_flag := false
|}.

Definition manifest_world (data : json) : world := {|
  w_is_address := fun _ => true;
  w_checksum := fun a => a;
  w_load := fun _ => Some data;
  w_connected := fun _ => true;
  w_storage := fun _ _ _ _ _ => Value "0x00"
|}.

Definition args_of_manifest (path : string) : Args := {|
  address := "0x0000000000000000000000000000000000000000";
  rpc_a := "http://a.example";
  rpc_b := "https://b.example";
  block_a := "latest";
  block_b := "latest";
  slot := None;
  manifest := Some path;
  timeout := 30;
  json_flag := false
|}.

(** A world whose slot 1 cannot be read and whose slot 2 differs between
    the endpoints. *)
Definition sample_world : world := {|
  w_is_address := fun a => Nat.eqb (String.length a) 42;
  w_checksum := fun a => a;
  w_load := fun _ => None;
  w_connected := fun _ => true;
  w_storage := fun _ s _ idx _ =>
    if idx =? 1 then Failure "timeout"
    else if idx =? 2 then
      match s with EndA => Value "0x0a" | EndB => Value "0x0b" end
    else Value "0x00"
|}.

(** A world whose endpoint A answers no read. *)
Definition half_dead_world : world := {|
  w_is_address := fun a => Nat.eqb (String.length a) 42;
  w_checksum := fun a => a;
  w_load := fun _ => None;
  w_connected := fun _ => true;
  w_storage := fun _ s _ _ _ =>
    match s with EndA => Failure "timeout" | EndB => Value "0x00" end
|}.

(** A world whose endpoints answer no read at all. *)
Definition dead_world : world := {|
  w_is_address := fun a => Nat.eqb (String.length a) 42;
  w_checksum := fun a => a;
  w_load := fun _ => None;
  w_connected := fun _ => true;
  w_storage := fun _ _ _ _ _ => Failure "timeout"
|}.

(** ["0x1"] followed by sixty-four zeros: the text of 2^256. *)
Definition text_two_256 : string :=
  "0x10000000000000000000000000000000000000000000000000000000000000000".

(** ** Small runs *)

Example parse_slot_hex_1f : parse_slot_hex "  0X1F " = Ok 31.
Proof. reflexivity. Qed.

Example parse_slot_hex_bare : parse_slot_hex "1f" = Raise (ValueError "Slot must be 0x-prefixed hex: 1f").
Proof. reflexivity. Qed.

Example parse_slot_hex_empty_payload : parse_slot_hex "0x" = Raise (ValueError "Invalid slot hex: 0x").
Proof. reflexivity. Qed.

Example parse_slot_hex_grouped : parse_slot_hex "0x1_0" = Ok 16.
Proof. reflexivity. Qed.

Example int16_signed : PyInt.int16 " -0X_f " = Some (-15).
Proof. reflexivity. Qed.

Example compare_missing :
  compare {[ "x" := "0x1" ]} ∅ = ([("x", "0x1", "MISSING")], false).
Proof. vm_compute. reflexivity. Qed.

Example compare_xy :
  compare (<["x" := "0x1"]> {[ "y" := "0x2" ]}) (<["x" := "0x1"]> {[ "y" := "0x3" ]})
  = ([("y", "0x2", "0x3")], false).
Proof. vm_compute. reflexivity. Qed.

(** ** Characters *)

Section Characters.
Import PyStr PyInt HexText.

Lemma digit_value_hex_digit c : digit_value c = hex_digit c.
Proof. destruct c as [[] [] [] [] [] [] [] []]; reflexivity. Qed.

Lemma is_underscore_eq c : is_underscore c = true -> c = "_"%char.
Proof. unfold is_underscore. apply Ascii.eqb_eq. Qed.

Lemma hex_digit_range c d : hex_digit c = Some d -> 0 <= d < 16.
Proof.
  destruct c as [[] [] [] [] [] [] [] []]; vm_compute; intros [=]; subst; split; congruence.
Qed.

Lemma c_space_is_space c : is_c_space c = true -> is_space c = true.
Proof. destruct c as [[] [] [] [] [] [] [] []]; vm_compute; congruence. Qed.

Lemma lower_char_space c : is_space (lower_char c) = is_space c.
Proof. destruct c as [[] [] [] [] [] [] [] []]; reflexivity. Qed.

End Characters.

(** ** Stripped text does not end in white space *)

Section Strip.
Import PyStr HexText.

Lemma last_char_rstrip s c :
  last_char (rstrip s) = Some c -> is_space c = false.
Proof.
  revert c. induction s as [|a s IH]; intros c; simpl; [discriminate|].
  destruct (rstrip s) as [|b r] eqn:E.
  - destruct (is_space a) eqn:Ha; simpl; [discriminate|]. by intros [= <-].
  - simpl. intros H. apply IH. exact H.
Qed.

Lemma last_char_strip s c : last_char (strip s) = Some c -> is_space c = false.
Proof. apply last_char_rstrip. Qed.

Lemma last_char_lower s : last_char (lower s) = lower_char <$> last_char s.
Proof.
  induction s as [|a s IH]; simpl; [done|].
  destruct s as [|b s]; simpl in *; [done|exact IH].
Qed.

Lemma last_char_lower_strip s c :
  last_char (lower (strip s)) = Some c -> is_space c = false.
Proof.
  rewrite last_char_lower.
  destruct (last_char (strip s)) as [d|] eqn:E; simpl; [|discriminate].
  intros [= <-]. rewrite lower_char_space. by apply last_char_strip in E.
Qed.

Lemma length_lstrip s : (String.length (lstrip s) <= String.length s)%nat.
Proof. induction s as [|a s IH]; simpl; [lia|]. destruct (is_space a); simpl; lia. Qed.

Lemma length_rstrip s : (String.length (rstrip s) <= String.length s)%nat.
Proof.
  induction s as [|a s IH]; simpl; [lia|].
  destruct (rstrip s); [destruct (is_space a)|]; simpl in *; lia.
Qed.

Lemma length_lower s : String.length (lower s) = String.length s.
Proof. induction s as [|a s IH]; simpl; congruence. Qed.

Lemma length_lower_strip s :
  (String.length (lower (strip s)) <= String.length s)%nat.
Proof.
  rewrite length_lower. unfold strip.
  etrans; [apply length_rstrip|apply length_lstrip].
Qed.

Lemma startswith_0x s :
  startswith s "0x" = true -> exists p, s = String "0" (String "x" p).
Proof.
  unfold startswith. intros H%String.prefix_correct.
  destruct s as [|a [|b p]]; simpl in H; try discriminate.
  injection H as -> ->. eauto.
Qed.

End Strip.

(** ** The digit loop of [int] *)

Section Scan.
Import PyStr PyInt HexText.

Lemma hex_fold_value acc s :
  hex_fold acc s = acc * 16 ^ Z.of_nat (String.length s) + hex_value s.
Proof.
  revert acc. induction s as [|c s IH]; intros acc; simpl hex_fold; simpl hex_value.
  - simpl. lia.
  - rewrite IH. simpl String.length. rewrite Nat2Z.inj_succ, Z.pow_succ_r by lia. ring.
Qed.

Lemma hex_value_bounds s :
  all_hex s = true -> 0 <= hex_value s < 16 ^ Z.of_nat (String.length s).
Proof.
  induction s as [|c s IH]; simpl all_hex; simpl hex_value; simpl String.length.
  - intros _. simpl. lia.
  - intros [Hc Hs]%andb_prop. specialize (IH Hs).
    unfold is_hex_digit in Hc. destruct (hex_digit c) as [d|] eqn:E; [|discriminate].
    apply hex_digit_range in E. simpl default.
    rewrite Nat2Z.inj_succ, Z.pow_succ_r by lia. nia.
Qed.

Lemma last_char_cons c s :
  nonempty s = true -> last_char (String c s) = last_char s.
Proof. destruct s; [discriminate|reflexivity]. Qed.

Lemma last_char_None s : last_char s = None -> nonempty s = false.
Proof.
  induction s as [|a s IH]; [reflexivity|].
  destruct s as [|b s]; [discriminate|]. intros H. apply IH in H. discriminate.
Qed.

Lemma all_hex_nonempty s : all_hex s = false -> nonempty s = true.
Proof. destruct s; [discriminate|reflexivity]. Qed.

Lemma remove_underscores_nonempty s :
  nonempty (remove_underscores s) = true -> nonempty s = true.
Proof. destruct s; [discriminate|reflexivity]. Qed.

(** The loop on text made of digits and underscores only. *)
Lemma scan_all_hex s : forall prev digits acc,
  all_hex (remove_underscores s) = true ->
  scan s prev digits acc =
    if has_double_underscore (with_prev prev s) || ends_with_underscore (with_prev prev s)
    then None
    else Some (hex_fold acc (remove_underscores s),
               (digits + String.length (remove_underscores s))%nat, EmptyString).
Proof.
  induction s as [|c s IH]; intros prev digits acc Hall.
  - destruct prev; simpl; [reflexivity|]. by rewrite Nat.add_0_r.
  - simpl scan. destruct (is_underscore c) eqn:Hu.
    + apply is_underscore_eq in Hu as ->. simpl in Hall.
      destruct prev; [reflexivity|].
      rewrite (IH true digits acc Hall). reflexivity.
    + assert (Ascii.eqb c "_" = false) as Hne by exact Hu.
      simpl in Hall. rewrite Hne in Hall. simpl in Hall.
      apply andb_prop in Hall as [Hc Hs].
      rewrite digit_value_hex_digit. unfold is_hex_digit in Hc.
      destruct (hex_digit c) as [d|] eqn:E; [|discriminate].
      rewrite (IH false (S digits) (16 * acc + d) Hs).
      simpl remove_underscores. rewrite Hne. simpl hex_fold. rewrite E. simpl default.
      simpl String.length. rewrite Nat.add_succ_r. simpl plus.
      assert (has_double_underscore (with_prev prev (String c s))
              = has_double_underscore (with_prev false s)) as ->.
      { destruct prev; simpl; rewrite ?Hne, ?andb_false_r; simpl; destruct s; reflexivity. }
      assert (ends_with_underscore (with_prev prev (String c s))
              = ends_with_underscore (with_prev false s)) as ->.
      { unfold ends_with_underscore.
        destruct prev; simpl; destruct s; simpl; rewrite ?Hne; reflexivity. }
      reflexivity.
Qed.

(** The loop on text with another character in it: it fails or stops
    before the end. *)
Lemma scan_not_all_hex s : forall prev digits acc,
  all_hex (remove_underscores s) = false ->
  match scan s prev digits acc with
  | None => True
  | Some (_, _, rest) => nonempty rest = true /\ last_char rest = last_char s
  end.
Proof.
  induction s as [|c s IH]; intros prev digits acc Hall; [discriminate|].
  simpl scan. destruct (is_underscore c) eqn:Hu.
  - destruct prev; [exact I|].
    assert (Ascii.eqb c "_" = true) as He by exact Hu.
    simpl in Hall. rewrite He in Hall.
    specialize (IH true digits acc Hall).
    destruct (scan s true digits acc) as [[[v n] rest]|]; [|exact I].
    destruct IH as [Hr Hl]. split; [exact Hr|].
    rewrite last_char_cons; [exact Hl|].
    apply remove_underscores_nonempty. by apply all_hex_nonempty.
  - assert (Ascii.eqb c "_" = false) as Hne by exact Hu.
    simpl in Hall. rewrite Hne in Hall. simpl in Hall.
    rewrite digit_value_hex_digit. unfold is_hex_digit in Hall.
    destruct (hex_digit c) as [d|] eqn:E.
    + simpl in Hall. specialize (IH false (S digits) (16 * acc + d) Hall).
      destruct (scan s false (S digits) (16 * acc + d)) as [[[v n] rest]|]; [|exact I].
      destruct IH as [Hr Hl]. split; [exact Hr|].
      rewrite last_char_cons; [exact Hl|].
      apply remove_underscores_nonempty. by apply all_hex_nonempty.
    + destruct prev; [exact I|]. split; reflexivity.
Qed.

Lemma skip_space_last rest c :
  last_char rest = Some c -> is_c_space c = false -> skip_space rest <> EmptyString.
Proof.
  induction rest as [|a r IH]; [discriminate|].
  intros Hl Hc. simpl skip_space. destruct (is_c_space a) eqn:Ha; [|discriminate].
  destruct r as [|b r]; [simpl in Hl; congruence|]. apply IH; [exact Hl|exact Hc].
Qed.

End Scan.

(** ** [int(s, 16)] on text that starts with ["0x"] *)

Section Int16.
Import PyStr PyInt HexText.

Lemma int16_0x p :
  int16 (String "0" (String "x" p)) =
    let start := match p with
                 | String u p' => if is_underscore u then p' else p
                 | EmptyString => p
                 end in
    if starts_with_underscore start then None else finish (scan start false 0 0).
Proof.
  unfold int16, finish. cbn [skip_space].
  change (is_c_space "0") with false. cbn [strip_sign strip_prefix].
  change (Ascii.eqb "x" "x" || Ascii.eqb "x" "X") with true. cbv zeta.
  destruct (starts_with_underscore _); [reflexivity|].
  destruct (scan _ false 0 0) as [[[v n] rest]|]; reflexivity.
Qed.

Lemma finish_scan start :
  starts_with_underscore start = false ->
  (forall c, last_char start = Some c -> is_space c = false) ->
  finish (scan start false 0 0) =
    if grouped_hex start then Some (grouped_value start) else None.
Proof.
  intros Hs Hlast. unfold grouped_hex, plain_hex, grouped_value.
  destruct (all_hex (remove_underscores start)) eqn:Hall.
  - rewrite scan_all_hex by exact Hall. unfold with_prev.
    rewrite andb_true_r.
    destruct (has_double_underscore start); [reflexivity|].
    destruct (ends_with_underscore start); [reflexivity|]. simpl.
    rewrite hex_fold_value.
    destruct (remove_underscores start); simpl; [reflexivity|f_equal; lia || reflexivity].
  - rewrite !andb_false_r.
    pose proof (scan_not_all_hex start false 0%nat 0 Hall) as H.
    destruct (scan start false 0 0) as [[[v n] rest]|]; [|reflexivity].
    destruct H as [Hne Hl]. simpl.
    destruct (last_char start) as [c|] eqn:Hc.
    + assert (skip_space rest <> EmptyString) as Hk.
      { apply (skip_space_last rest c Hl).
        destruct (is_c_space c) eqn:Hcs; [|reflexivity].
        apply c_space_is_space in Hcs. rewrite (Hlast c eq_refl) in Hcs. discriminate. }
      destruct (skip_space rest); [congruence|]. by destruct (Nat.eqb n 0).
    + apply last_char_None in Hl. congruence.
Qed.

Lemma grouped_hex_leading start :
  grouped_hex (String "_" start) =
    if starts_with_underscore start then false else grouped_hex start.
Proof.
  unfold grouped_hex, ends_with_underscore, plain_hex.
  destruct start as [|c s]; [reflexivity|].
  cbn [starts_with_underscore]. unfold is_underscore.
  cbn [has_double_underscore last_char remove_underscores].
  change (Ascii.eqb "_" "_") with true. cbn [andb orb].
  destruct (Ascii.eqb c "_"); reflexivity.
Qed.

Theorem int16_grouped p :
  (forall c, last_char (String "0" (String "x" p)) = Some c -> is_space c = false) ->
  int16 (String "0" (String "x" p)) =
    if grouped_hex p then Some (grouped_value p) else None.
Proof.
  intros Hlast. rewrite int16_0x. cbv zeta.
  destruct p as [|u p'].
  - reflexivity.
  - assert (forall c, last_char (String u p') = Some c -> is_space c = false) as Hl1.
    { intros c Hc. apply Hlast. exact Hc. }
    destruct (is_underscore u) eqn:Hu.
    + apply is_underscore_eq in Hu as ->.
      rewrite grouped_hex_leading.
      destruct (starts_with_underscore p') eqn:Hs; [reflexivity|].
      rewrite finish_scan; [reflexivity|exact Hs|].
      intros c Hc. apply Hl1. destruct p'; [discriminate|exact Hc].
    + cbn [starts_with_underscore]. rewrite Hu.
      apply finish_scan; [exact Hu|exact Hl1].
Qed.

End Int16.

(** ** [parse_slot_hex] *)

Section ParseSlotHex.
Import PyStr PyInt HexText.

Lemma parse_slot_hex_no_prefix raw :
  startswith (lower (strip raw)) "0x" = false ->
  parse_slot_hex raw = Raise (ValueError ("Slot must be 0x-prefixed hex: " +:+ raw)).
Proof. intros H. unfold parse_slot_hex. cbv zeta. by rewrite H. Qed.

Lemma parse_slot_hex_prefix raw p :
  lower (strip raw) = String "0" (String "x" p) ->
  parse_slot_hex raw =
    if grouped_hex p then Ok (grouped_value p)
    else Raise (ValueError ("Invalid slot hex: " +:+ raw)).
Proof.
  intros H. unfold parse_slot_hex. cbv zeta. rewrite H.
  change (startswith (String "0" (String "x" p)) "0x")
    with (String.prefix EmptyString p).
  assert (String.prefix EmptyString p = true) as -> by (by destruct p).
  cbn [negb]. rewrite int16_grouped.
  - by destruct (grouped_hex p).
  - intros c Hc. apply (last_char_lower_strip raw). by rewrite H.
Qed.

Lemma parse_slot_hex_Ok raw v :
  parse_slot_hex raw = Ok v ->
  exists p, lower (strip raw) = String "0" (String "x" p)
            /\ grouped_hex p = true /\ v = grouped_value p.
Proof.
  intros H.
  destruct (startswith (lower (strip raw)) "0x") eqn:Hp.
  - apply startswith_0x in Hp as [p Hp]. exists p.
    rewrite (parse_slot_hex_prefix raw p Hp) in H.
    destruct (grouped_hex p); [|discriminate]. by injection H as <-.
  - rewrite parse_slot_hex_no_prefix in H by exact Hp. discriminate.
Qed.

Lemma length_remove_underscores s :
  (String.length (remove_underscores s) <= String.length s)%nat.
Proof.
  induction s as [|c s IH]; simpl; [lia|]. destruct (Ascii.eqb c "_"); simpl; lia.
Qed.

Lemma parse_slot_hex_bounds raw v :
  parse_slot_hex raw = Ok v ->
  0 <= v < 16 ^ (Z.of_nat (String.length raw) - 2).
Proof.
  intros (p & Hs & Hg & ->)%parse_slot_hex_Ok.
  unfold grouped_hex, plain_hex in Hg.
  apply andb_prop in Hg as [_ [_ Hall]%andb_prop].
  pose proof (hex_value_bounds _ Hall) as Hb.
  pose proof (length_remove_underscores p) as Hl.
  pose proof (length_lower_strip raw) as Hr. rewrite Hs in Hr. simpl in Hr.
  unfold grouped_value. split; [lia|].
  eapply Z.lt_le_trans; [apply Hb|]. apply Z.pow_le_mono_r; lia.
Qed.


End ParseSlotHex.




(** ** The loops of [parse_slots] *)

Section AppendEach.
Context {A : Type} (f : A -> result Slot).

Lemma append_each_Ok items : forall acc slots,
  append_each f items acc = Ok slots <->
  exists new, slots = acc ++ new /\ Forall2 (fun x s => f x = Ok s) items new.
Proof.
  induction items as [|x rest IH]; intros acc slots; simpl.
  - split.
    + intros [= <-]. exists []. split; [by rewrite app_nil_r|constructor].
    + intros (new & -> & Hf). inversion Hf. by rewrite app_nil_r.
  - destruct (f x) as [s|e] eqn:E.
    + rewrite IH. split.
      * intros (new & -> & Hf). exists (s :: new).
        split; [by rewrite <- app_assoc|]. by constructor.
      * intros (new & -> & Hf). inversion Hf as [|? s' ? new' Hx Hrest]; subst.
        assert (s' = s) as -> by congruence.
        exists new'. split; [by rewrite <- app_assoc|exact Hrest].
    + split; [discriminate|].
      intros (new & _ & Hf). inversion Hf; congruence.
Qed.

Lemma append_each_total items acc :
  Forall (fun x => is_ok (f x) = true) items ->
  exists slots, append_each f items acc = Ok slots.
Proof.
  revert acc. induction items as [|x rest IH]; intros acc Hall; simpl; [eauto|].
  inversion Hall as [|? ? Hx Hrest]; subst.
  destruct (f x) as [s|e]; [|discriminate]. by apply IH.
Qed.

End AppendEach.

(** ** [parse_slots] by source *)

Section ParseSlots.
Variables (w : world) (args : Args) (t : trace).

Lemma lift_outcome {A} (r : result A) (t0 : trace) : lift r t0 = (outcome r, t0).
Proof. by destruct r. Qed.

Lemma outcome_inl {A} (r : result A) (a : A) : outcome r = inl a -> r = Ok a.
Proof. destruct r; simpl; [by intros [= ->]|discriminate]. Qed.

Lemma parse_slots_flags items :
  slot args = Some items -> items <> [] ->
  parse_slots w args t = (outcome (append_each slot_of_item items []), t).
Proof.
  intros Hs Hne. unfold parse_slots. rewrite Hs.
  destruct items as [|i items]; [done|].
  change (truthy_list (Some (i :: items))) with true.
  change (default [] (Some (i :: items))) with (i :: items).
  cbv iota. apply lift_outcome.
Qed.

Lemma parse_slots_manifest path :
  truthy_list (slot args) = false ->
  manifest args = Some path -> path <> EmptyString ->
  parse_slots w args t =
    (match w_load w path with
     | Some (JList l) => outcome (append_each slot_of_element l [])
     | Some (JDict items) => outcome (append_each slot_of_entry items [])
     | Some _ => inr (Exception (ValueError bad_manifest_msg))
     | None => inr (Exception (LoadError path))
     end, t ++ [EOpen path]).
Proof.
  intros Hs Hm Hne. unfold parse_slots. rewrite Hs, Hm.
  destruct path as [|c path]; [done|].
  change (truthy_str (Some (String c path))) with true.
  change (default EmptyString (Some (String c path))) with (String c path).
  cbv iota. unfold load_manifest, bind, emit, ret, throw.
  destruct (w_load w (String c path)) as [[]|]; try reflexivity; apply lift_outcome.
Qed.

Lemma parse_slots_nothing :
  truthy_list (slot args) = false -> truthy_str (manifest args) = false ->
  parse_slots w args t = (inr (Exception (ValueError no_slots_msg)), t).
Proof. intros Hs Hm. unfold parse_slots. by rewrite Hs, Hm. Qed.

(** Whatever the source, the slots come out of one of the three loops. *)
Lemma parse_slots_inl slots t' :
  parse_slots w args t = (inl slots, t') ->
  (exists items, append_each slot_of_item items [] = Ok slots)
  \/ (exists l, append_each slot_of_element l [] = Ok slots)
  \/ (exists items, append_each slot_of_entry items [] = Ok slots).
Proof.
  unfold parse_slots.
  destruct (truthy_list (slot args)).
  - rewrite lift_outcome. intros [= H%outcome_inl _]. left. eauto.
  - destruct (truthy_str (manifest args)); [|discriminate].
    unfold load_manifest, bind, emit, ret, throw.
    destruct (w_load w _) as [[]|]; try discriminate;
      rewrite lift_outcome; intros [= H%outcome_inl _]; eauto.
Qed.

End ParseSlots.

Lemma append_each_Forall {A} (f : A -> result Slot) (P : Slot -> Prop) items slots :
  (forall x s, f x = Ok s -> P s) ->
  append_each f items [] = Ok slots -> Forall P slots.
Proof.
  intros Hf (new & -> & H2)%append_each_Ok. simpl.
  induction H2; constructor; eauto.
Qed.

Lemma slot_of_item_index item s :
  slot_of_item item = Ok s -> exists raw, parse_slot_hex raw = Ok s.2.
Proof.
  unfold slot_of_item. destruct (PyStr.split_once ":" item) as [[l r]|].
  - destruct (parse_slot_hex r) eqn:E; [|discriminate]. intros [= <-]. eauto.
  - destruct (parse_slot_hex item) eqn:E; [|discriminate]. intros [= <-]. eauto.
Qed.

Lemma slot_of_element_inv raw s :
  slot_of_element raw = Ok s <-> raw = JStr s.1 /\ parse_slot_hex s.1 = Ok s.2.
Proof.
  unfold slot_of_element, parse_slot_hex_json. split.
  - destruct raw; try discriminate.
    destruct (parse_slot_hex _) eqn:E; [|discriminate]. by intros [= <-].
  - destruct s as [l i]. simpl. intros [-> ->]. reflexivity.
Qed.

Lemma slot_of_entry_inv entry s :
  slot_of_entry entry = Ok s <->
  s.1 = entry.1 /\ exists text, entry.2 = JStr text /\ parse_slot_hex text = Ok s.2.
Proof.
  unfold slot_of_entry, parse_slot_hex_json. destruct entry as [label raw]. split.
  - destruct raw; try discriminate.
    destruct (parse_slot_hex _) eqn:E; [|discriminate]. intros [= <-]. simpl. eauto.
  - destruct s as [l i]. simpl. intros [-> (text & -> & ->)]. reflexivity.
Qed.




(** Claim C5.  With no [--slot] flag and a manifest that loads as a JSON
    array of strings, the slots [parse_slots] returns are, element by
    element, the raw string as label and its parsed value as index, and it
    returns them whenever every element parses.  With a manifest that loads
    as a JSON object, they are, item by item, the key as label and the parsed
    value of the item's string as index. *)
Theorem parse_slots_manifest_shape (w : world) (args : Args) (t : trace) (path : string) :
  truthy_list (slot args) = false ->
  manifest args = Some path -> path <> EmptyString ->
  (forall raws : list string, w_load w path = Some (JList (JStr <$> raws)) ->
     (forall slots t', parse_slots w args t = (inl slots, t') ->
        Forall2 (fun (raw : string) (s : Slot) =>
                   s.1 = raw /\ parse_slot_hex raw = Ok s.2) raws slots)
     /\ (Forall (fun raw => is_ok (parse_slot_hex raw) = true) raws ->
         exists slots, parse_slots w args t = (inl slots, t ++ [EOpen path])))
  /\ (forall items : list (string * json), w_load w path = Some (JDict items) ->
     (forall slots t', parse_slots w args t = (inl slots, t') ->
        Forall2 (fun (entry : string * json) (s : Slot) =>
                   s.1 = entry.1
                   /\ exists text, entry.2 = JStr text /\ parse_slot_hex text = Ok s.2)
                items slots)
     /\ (Forall (fun entry : string * json =>
                   exists text, entry.2 = JStr text /\ is_ok (parse_slot_hex text) = true)
                items ->
         exists slots, parse_slots w args t = (inl slots, t ++ [EOpen path]))).
Proof.
  intros Hs Hm Hne. split.
  - intros raws Hload. rewrite (parse_slots_manifest w args t path Hs Hm Hne), Hload. split.
    + intros slots t' [= H%outcome_inl _].
      apply append_each_Ok in H as (new & -> & H2). simpl.
      apply Forall2_fmap_l in H2. eapply Forall2_impl; [exact H2|].
      intros x s [[= ->] Hp]%slot_of_element_inv. done.
    + intros Hall.
      destruct (append_each_total slot_of_element (JStr <$> raws) []) as [slots ->]; [|eauto].
      apply Forall_fmap. eapply Forall_impl; [exact Hall|].
      intros raw Hok. cbv beta in Hok.
      destruct (parse_slot_hex raw) as [idx|] eqn:E; [|discriminate].
      unfold compose, slot_of_element, parse_slot_hex_json. by rewrite E.
  - intros items Hload. rewrite (parse_slots_manifest w args t path Hs Hm Hne), Hload. split.
    + intros slots t' [= H%outcome_inl _].
      apply append_each_Ok in H as (new & -> & H2). simpl.
      eapply Forall2_impl; [exact H2|].
      intros x s Hx%slot_of_entry_inv. exact Hx.
    + intros Hall.
      destruct (append_each_total slot_of_entry items []) as [slots ->]; [|eauto].
      eapply Forall_impl; [exact Hall|].
      intros [label raw] (text & Ht & Hok). simpl in Ht. subst raw.
      destruct (parse_slot_hex text) as [idx|] eqn:E; [|discriminate].
      unfold slot_of_entry, parse_slot_hex_json. by rewrite E.
Qed.

Lemma parse_slots_manifest_shape_witness :
  Forall2 (fun (raw : string) (s : Slot) => s.1 = raw /\ parse_slot_hex raw = Ok s.2)
          ["0x1"; "0xff"] [("0x1", 1); ("0xff", 255)]
  /\ Forall2 (fun (entry : string * json) (s : Slot) =>
                s.1 = entry.1
                /\ exists text, entry.2 = JStr text /\ parse_slot_hex text = Ok s.2)
             [("supply", JStr "0x2")] [("supply", 2)].
Proof.
  split.
  - apply (proj1 (proj1 (parse_slots_manifest_shape
                           (manifest_world (JList [JStr "0x1"; JStr "0xff"]))
                           (args_of_manifest "slots.json") [] "slots.json"
                           eq_refl eq_refl ltac:(discriminate))
                        ["0x1"; "0xff"] eq_refl)
                 _ [EOpen "slots.json"]).
    reflexivity.
  - apply (proj1 (proj2 (parse_slots_manifest_shape
                           (manifest_world (JDict [("supply", JStr "0x2")]))
                           (args_of_manifest "slots.json") [] "slots.json"
                           eq_refl eq_refl ltac:(discriminate))
                        [("supply", JStr "0x2")] eq_refl)
                 _ [EOpen "slots.json"]).
    reflexivity.
Defined.

(** Claim C6.  With a non-empty [--slot] list [parse_slots] returns the
    slots of that list, item by item, whatever the manifest argument and the
    file system are, and opens no file.  Without it and with a manifest path,
    the file is opened once and its slots are returned: those of the elements
    of an array, those of the items of an object, and a [ValueError] for any
    other JSON value.  With neither, [parse_slots] raises a [ValueError]. *)
Theorem parse_slots_sources (w : world) (args : Args) (t : trace) :
  (forall items, slot args = Some items -> items <> [] ->
     snd (parse_slots w args t) = t
     /\ (forall w' m, parse_slots w' {| address := address args; rpc_a := rpc_a args;
                        rpc_b := rpc_b args; block_a := block_a args;
                        block_b := block_b args; slot := slot args; manifest := m;
                        timeout := timeout args; json_flag := json_flag args |} t
                      = parse_slots w args t)
     /\ (forall slots, fst (parse_slots w args t) = inl slots <->
                       Forall2 (fun item s => slot_of_item item = Ok s) items slots))
  /\ (forall path, truthy_list (slot args) = false ->
        manifest args = Some path -> path <> EmptyString ->
        snd (parse_slots w args t) = t ++ [EOpen path]
        /\ (forall l, w_load w path = Some (JList l) ->
              forall slots, fst (parse_slots w args t) = inl slots <->
                            Forall2 (fun x s => slot_of_element x = Ok s) l slots)
        /\ (forall items, w_load w path = Some (JDict items) ->
              forall slots, fst (parse_slots w args t) = inl slots <->
                            Forall2 (fun x s => slot_of_entry x = Ok s) items slots)
        /\ (forall data, w_load w path = Some data -> is_list_or_dict data = false ->
              fst (parse_slots w args t) = inr (Exception (ValueError bad_manifest_msg))))
  /\ (truthy_list (slot args) = false -> truthy_str (manifest args) = false ->
        parse_slots w args t = (inr (Exception (ValueError no_slots_msg)), t)).
Proof.
  assert (forall {A} (f : A -> result Slot) items slots,
            outcome (append_each f items []) = inl slots <->
            Forall2 (fun x s => f x = Ok s) items slots) as Hloop.
  { intros A f items slots. split.
    - intros (new & -> & H)%outcome_inl%append_each_Ok. exact H.
    - intros H. assert (append_each f items [] = Ok slots) as ->; [|reflexivity].
      apply append_each_Ok. exists slots. done. }
  split; [|split].
  - intros items Hs Hne. rewrite (parse_slots_flags w args t items Hs Hne).
    split; [reflexivity|]. split; [|apply Hloop].
    intros w' m. apply parse_slots_flags; [exact Hs|exact Hne].
  - intros path Hs Hm Hne. rewrite (parse_slots_manifest w args t path Hs Hm Hne).
    split; [reflexivity|]. simpl fst.
    split; [|split]; intros data Hload; rewrite Hload.
    + apply Hloop.
    + apply Hloop.
    + by destruct data.
  - apply parse_slots_nothing.
Qed.

Lemma parse_slots_sources_witness :
  parse_slots (manifest_world (JList [JStr "0x9"]))
    {| address := "0x0000000000000000000000000000000000000000";
       rpc_a := "http://a.example"; rpc_b := "https://b.example";
       block_a := "latest"; block_b := "latest";
       slot := Some ["owner:0x0"; "0x1"]; manifest := Some "slots.json";
       timeout := 30; json_flag := false |} []
  = (inl [("owner", 0); ("0x1", 1)], [])
  /\ fst (parse_slots (manifest_world (JList [JStr "0x9"])) (args_of_manifest "slots.json") [])
     = inl [("0x9", 9)]
  /\ fst (parse_slots (manifest_world (JInt 7)) (args_of_manifest "slots.json") [])
     = inr (Exception (ValueError bad_manifest_msg))
  /\ parse_slots quiet_world
       {| address := "0x0000000000000000000000000000000000000000";
          rpc_a := "http://a.example"; rpc_b := "https://b.example";
          block_a := "latest"; block_b := "latest";
          slot := None; manifest := None;
          timeout := 30; json_flag := false |} []
     = (inr (Exception (ValueError no_slots_msg)), []).
Proof.
  split; [|split; [|split]].
  - pose proof (proj1 (parse_slots_sources (manifest_world (JList [JStr "0x9"]))
      {| address := "0x0000000000000000000000000000000000000000";
         rpc_a := "http://a.example"; rpc_b := "https://b.example";
         block_a := "latest"; block_b := "latest";
         slot := Some ["owner:0x0"; "0x1"]; manifest := Some "slots.json";
         timeout := 30; json_flag := false |} [])
      ["owner:0x0"; "0x1"] eq_refl ltac:(discriminate)) as (Ht & _ & Hs).
    apply injective_projections; [|exact Ht].
    apply Hs. repeat constructor.
  - apply (proj1 (proj2 (proj1 (proj2 (parse_slots_sources
             (manifest_world (JList [JStr "0x9"])) (args_of_manifest "slots.json") []))
             "slots.json" eq_refl eq_refl ltac:(discriminate)))
             [JStr "0x9"] eq_refl [("0x9", 9)]).
    repeat constructor.
  - apply (proj2 (proj2 (proj2 (proj1 (proj2 (parse_slots_sources
             (manifest_world (JInt 7)) (args_of_manifest "slots.json") []))
             "slots.json" eq_refl eq_refl ltac:(discriminate))))
             (JInt 7) eq_refl eq_refl).
  - apply (proj2 (proj2 (parse_slots_sources quiet_world
      {| address := "0x0000000000000000000000000000000000000000";
         rpc_a := "http://a.example"; rpc_b := "https://b.example";
         block_a := "latest"; block_b := "latest";
         slot := None; manifest := None;
         timeout := 30; json_flag := false |} [])) eq_refl eq_refl).
Defined.

(** ** [read_slots] *)

Section ReadSlots.
Variables (w : world) (w3 : side) (addr block_id : string).

Local Abbreviation loop := (read_slots_loop w w3 addr block_id).
Local Abbreviation reads := (map (read_event w3 addr block_id)).

Lemma read_slots_loop_cons label idx rest out t :
  loop ((label, idx) :: rest) out t =
    loop rest (<[label := render (w_storage w t w3 addr idx block_id)]> out)
         (t ++ [ERead w3 addr idx block_id]).
Proof.
  simpl. unfold bind, try_except, get_storage_at, ret.
  by destruct (w_storage w t w3 addr idx block_id).
Qed.

Lemma read_slots_loop_total slots : forall out t,
  exists out', loop slots out t = (inl out', t ++ reads slots).
Proof.
  induction slots as [|[label idx] rest IH]; intros out t.
  - exists out. simpl. by rewrite app_nil_r.
  - rewrite read_slots_loop_cons.
    destruct (IH (<[label := render (w_storage w t w3 addr idx block_id)]> out)
                 (t ++ [ERead w3 addr idx block_id])) as [out' ->].
    exists out'. simpl. by rewrite <- app_assoc.
Qed.

Lemma read_slots_loop_app l1 l2 : forall out t out1 t1,
  loop l1 out t = (inl out1, t1) ->
  loop (l1 ++ l2) out t = loop l2 out1 t1.
Proof.
  induction l1 as [|[label idx] rest IH]; intros out t out1 t1.
  - simpl. by intros [= -> ->].
  - rewrite <- app_comm_cons, !read_slots_loop_cons. apply IH.
Qed.

Lemma read_slots_loop_lookup_notin lbl slots : forall out t out' t',
  lbl ∉ labels slots ->
  loop slots out t = (inl out', t') ->
  out' !! lbl = out !! lbl.
Proof.
  induction slots as [|[label idx] rest IH]; intros out t out' t' Hnotin.
  - simpl. by intros [= -> _].
  - rewrite read_slots_loop_cons. intros H.
    unfold labels in *. rewrite fmap_cons, not_elem_of_cons in Hnotin.
    destruct Hnotin as [Hne Hrest]. simpl in Hne.
    rewrite (IH _ _ _ _ Hrest H). by rewrite lookup_insert_ne.
Qed.

Lemma read_slots_loop_dom slots : forall out t out' t',
  loop slots out t = (inl out', t') ->
  dom out' = dom out ∪ list_to_set (labels slots).
Proof.
  induction slots as [|[label idx] rest IH]; intros out t out' t'.
  - simpl. intros [= -> _]. rewrite union_empty_r_L. reflexivity.
  - rewrite read_slots_loop_cons. intros H%IH. rewrite H, dom_insert_L.
    unfold labels. rewrite fmap_cons. simpl.
    rewrite (union_comm_L {[label]} (dom out)), union_assoc_L. reflexivity.
Qed.

(** The state of the loop once it is past a slot. *)
Lemma read_slots_loop_past l1 label idx out t :
  exists out1,
    loop (l1 ++ [(label, idx)]) out t
      = (inl out1, t ++ reads (l1 ++ [(label, idx)]))
    /\ out1 !! label = Some (render (w_storage w (t ++ reads l1) w3 addr idx block_id)).
Proof.
  destruct (read_slots_loop_total l1 out t) as [out0 H0].
  exists (<[label := render (w_storage w (t ++ reads l1) w3 addr idx block_id)]> out0).
  split.
  - rewrite (read_slots_loop_app l1 [(label, idx)] out t _ _ H0).
    rewrite read_slots_loop_cons. simpl. unfold ret.
    rewrite map_app. simpl. by rewrite app_assoc.
  - by rewrite lookup_insert_eq.
Qed.

End ReadSlots.

(** Claim C7.  [read_slots] returns a map for every slot list and every
    endpoint and issues one read per slot, in order.  When the read of a slot
    fails, the map holds the marker ["ERROR:"] followed by the failure text
    under that slot's label once the loop is past it, the loop goes on with
    the slots that follow, and the marker is in the returned map unless a
    later slot has the same label. *)
Theorem read_slots_catches (w : world) (w3 : side) (addr block_id : string)
    (slots : list Slot) (t : trace) :
  exists out,
    read_slots w w3 addr block_id slots t
      = (inl out, t ++ map (read_event w3 addr block_id) slots)
    /\ forall l1 label idx l2 msg,
         slots = l1 ++ (label, idx) :: l2 ->
         w_storage w (t ++ map (read_event w3 addr block_id) l1) w3 addr idx block_id
           = Failure msg ->
         exists out1,
           read_slots w w3 addr block_id (l1 ++ [(label, idx)]) t
             = (inl out1, t ++ map (read_event w3 addr block_id) (l1 ++ [(label, idx)]))
           /\ out1 !! label = Some ("ERROR:" +:+ msg)
           /\ read_slots w w3 addr block_id slots t
              = read_slots_loop w w3 addr block_id l2 out1
                  (t ++ map (read_event w3 addr block_id) (l1 ++ [(label, idx)]))
           /\ (label ∉ labels l2 -> out !! label = Some ("ERROR:" +:+ msg)).
Proof.
  unfold read_slots.
  destruct (read_slots_loop_total w w3 addr block_id slots ∅ t) as [out Hout].
  exists out. split; [exact Hout|].
  intros l1 label idx l2 msg -> Hfail.
  destruct (read_slots_loop_past w w3 addr block_id l1 label idx ∅ t) as (out1 & H1 & Hl).
  rewrite Hfail in Hl. simpl in Hl.
  exists out1. split; [exact H1|]. split; [exact Hl|].
  assert (read_slots_loop w w3 addr block_id (l1 ++ (label, idx) :: l2) ∅ t
          = read_slots_loop w w3 addr block_id l2 out1
              (t ++ map (read_event w3 addr block_id) (l1 ++ [(label, idx)]))) as Hcont.
  { rewrite (cons_middle (label, idx) l1 l2), app_assoc.
    by apply read_slots_loop_app. }
  split; [exact Hcont|].
  intros Hnotin. rewrite Hcont in Hout.
  by rewrite (read_slots_loop_lookup_notin _ _ _ _ _ _ _ _ _ _ Hnotin Hout).
Qed.

Lemma read_slots_catches_witness :
  exists out,
    read_slots sample_world EndA "0xabc" "latest" [("a", 0); ("b", 1); ("c", 0)] []
      = (inl out, [ERead EndA "0xabc" 0 "latest"; ERead EndA "0xabc" 1 "latest";
                   ERead EndA "0xabc" 0 "latest"])
    /\ out !! "b" = Some "ERROR:timeout".
Proof.
  destruct (read_slots_catches sample_world EndA "0xabc" "latest"
              [("a", 0); ("b", 1); ("c", 0)] []) as (out & Hout & Hfail).
  exists out. split; [exact Hout|].
  destruct (Hfail [("a", 0)] "b" 1 [("c", 0)] "timeout" eq_refl eq_refl)
    as (out1 & _ & _ & _ & Hlast).
  apply Hlast. intros [=]%list_elem_of_singleton.
Defined.

(** Claim C8.  For every slot list [read_slots] returns a map, and the
    value under a label is the one read for the last slot carrying that
    label, whatever earlier slots with the same label were given; a
    [--slot] list whose items all parse is accepted whether or not labels
    repeat. *)
Theorem read_slots_last_wins (w : world) (w3 : side) (addr block_id : string)
    (slots : list Slot) (t : trace) :
  (exists out,
     read_slots w w3 addr block_id slots t
       = (inl out, t ++ map (read_event w3 addr block_id) slots)
     /\ forall l1 label idx l2,
          slots = l1 ++ (label, idx) :: l2 -> label ∉ labels l2 ->
          out !! label
            = Some (render (w_storage w (t ++ map (read_event w3 addr block_id) l1)
                              w3 addr idx block_id)))
  /\ (forall args items,
        slot args = Some items -> items <> [] ->
        Forall (fun item => is_ok (slot_of_item item) = true) items ->
        exists parsed,
          parse_slots w args t = (inl parsed, t)
          /\ Forall2 (fun item s => slot_of_item item = Ok s) items parsed).
Proof.
  split.
  - unfold read_slots.
    destruct (read_slots_loop_total w w3 addr block_id slots ∅ t) as [out Hout].
    exists out. split; [exact Hout|].
    intros l1 label idx l2 -> Hnotin.
    destruct (read_slots_loop_past w w3 addr block_id l1 label idx ∅ t) as (out1 & H1 & Hl).
    rewrite (cons_middle (label, idx) l1 l2), app_assoc in Hout.
    rewrite (read_slots_loop_app _ _ _ _ _ _ _ _ _ _ H1) in Hout.
    by rewrite (read_slots_loop_lookup_notin _ _ _ _ _ _ _ _ _ _ Hnotin Hout).
  - intros args items Hs Hne Hall.
    rewrite (parse_slots_flags w args t items Hs Hne).
    destruct (append_each_total slot_of_item items [] Hall) as [parsed Hp].
    exists parsed. rewrite Hp. split; [reflexivity|].
    apply append_each_Ok in Hp as (new & -> & H2). exact H2.
Qed.

Lemma read_slots_last_wins_witness :
  (exists out,
     read_slots sample_world EndA "0xabc" "latest" [("a", 1); ("a", 2)] []
       = (inl out, [ERead EndA "0xabc" 1 "latest"; ERead EndA "0xabc" 2 "latest"])
     /\ out !! "a" = Some "0x0a")
  /\ exists parsed,
       parse_slots sample_world (args_of_slots ["a:0x1"; "a:0x2"]) [] = (inl parsed, [])
       /\ Forall2 (fun item s => slot_of_item item = Ok s) ["a:0x1"; "a:0x2"] parsed.
Proof.
  destruct (read_slots_last_wins sample_world EndA "0xabc" "latest"
              [("a", 1); ("a", 2)] []) as [(out & Hout & Hlast) Hparse].
  split.
  - exists out. split; [exact Hout|].
    apply (Hlast [("a", 1)] "a" 2 [] eq_refl). intros []%elem_of_nil.
  - apply (Hparse (args_of_slots ["a:0x1"; "a:0x2"]) ["a:0x1"; "a:0x2"] eq_refl).
    + discriminate.
    + repeat constructor.
Defined.

(** ** [compare] *)

Section Compare.
Variables a b : gmap string string.

Lemma compare_loop_spec keys : forall diffs ok,
  compare_loop keys a b diffs ok =
    (diffs ++ (diff_of a b <$> filter (differs a b) keys),
     ok && bool_decide (filter (differs a b) keys = [])).
Proof.
  induction keys as [|k rest IH]; intros diffs ok.
  - simpl. by rewrite app_nil_r, andb_true_r.
  - simpl compare_loop. rewrite filter_cons.
    destruct (decide (differs a b k)) as [Hd|Hd].
    + rewrite bool_decide_eq_true_2 by exact Hd.
      rewrite IH, <- app_assoc. simpl. by rewrite andb_false_r.
    + rewrite bool_decide_eq_false_2 by exact Hd. apply IH.
Qed.

Lemma compare_diffs :
  (compare a b).1 = diff_of a b <$> filter (differs a b) (sorted (elements (dom a ∪ dom b))).
Proof. unfold compare. by rewrite compare_loop_spec. Qed.

Lemma compare_ok :
  (compare a b).2 = bool_decide (filter (differs a b) (sorted (elements (dom a ∪ dom b))) = []).
Proof. unfold compare. by rewrite compare_loop_spec. Qed.

Lemma compare_keys :
  (compare a b).1.*1.*1 = filter (differs a b) (sorted (elements (dom a ∪ dom b))).
Proof.
  rewrite compare_diffs.
  induction (filter _ _) as [|k l IH]; csimpl; [done|]. by rewrite IH.
Qed.

Lemma elem_of_sorted_keys k :
  k ∈ sorted (elements (dom a ∪ dom b)) <-> k ∈ dom a ∪ dom b.
Proof. unfold sorted. by rewrite merge_sort_Permutation, elem_of_elements. Qed.

Lemma NoDup_sorted_keys : NoDup (sorted (elements (dom a ∪ dom b))).
Proof. unfold sorted. rewrite merge_sort_Permutation. apply NoDup_elements. Qed.

End Compare.

Lemma StronglySorted_filter {A} (R : relation A) (P : A -> Prop)
    `{forall x, Decision (P x)} (l : list A) :
  StronglySorted R l -> StronglySorted R (filter P l).
Proof.
  induction 1 as [|x l Hs IH Hall]; [constructor|].
  rewrite filter_cons. destruct (decide (P x)); [|exact IH].
  constructor; [exact IH|].
  apply Forall_forall. intros y [_ Hy]%list_elem_of_filter.
  rewrite Forall_forall in Hall. by apply Hall.
Qed.

(** Claim C1.  The mismatch list of [compare a b] holds the triple
    (label, a-value, b-value) for exactly the labels of the union of the two
    key sets whose values differ, an absent key counting as ["MISSING"];
    its labels are in sorted order, each once; the boolean is true exactly
    when the list is empty; and [compare({"x": "0x1"}, {})] is
    [([("x", "0x1", "MISSING")], False)]. *)
Theorem compare_spec (a b : gmap string string) :
  (forall k va vb,
     (k, va, vb) ∈ (compare a b).1 <->
     k ∈ dom a ∪ dom b /\ va = get a k MISSING /\ vb = get b k MISSING /\ va <> vb)
  /\ StronglySorted String.le (compare a b).1.*1.*1
  /\ NoDup (compare a b).1.*1.*1
  /\ ((compare a b).2 = true <-> (compare a b).1 = [])
  /\ compare {[ "x" := "0x1" ]} ∅ = ([("x", "0x1", "MISSING")], false).
Proof.
  split; [|split; [|split; [|split]]].
  - intros k va vb. rewrite compare_diffs, list_elem_of_fmap. split.
    + intros (k' & [= -> -> ->] & [Hd Hk]%list_elem_of_filter).
      apply elem_of_sorted_keys in Hk. done.
    + intros (Hk & -> & -> & Hd). exists k. split; [reflexivity|].
      apply list_elem_of_filter. split; [exact Hd|]. by apply elem_of_sorted_keys.
  - rewrite compare_keys. apply StronglySorted_filter.
    unfold sorted. apply (StronglySorted_merge_sort String.le).
  - rewrite compare_keys. apply NoDup_filter, NoDup_sorted_keys.
  - rewrite compare_ok, compare_diffs, bool_decide_eq_true. split.
    + by intros ->.
    + apply fmap_nil_inv.
  - vm_compute. reflexivity.
Qed.

Lemma compare_spec_witness :
  (("y", "0x2", "0x3") ∈ (compare (<["x" := "0x1"]> {[ "y" := "0x2" ]})
                                  (<["x" := "0x1"]> {[ "y" := "0x3" ]})).1)
  /\ (compare {[ "x" := "0x1" ]} {[ "x" := "0x1" ]}).2 = true.
Proof.
  split.
  - apply (proj1 (compare_spec (<["x" := "0x1"]> {[ "y" := "0x2" ]})
                               (<["x" := "0x1"]> {[ "y" := "0x3" ]})) "y" "0x2" "0x3").
    split; [|split; [reflexivity|split; [reflexivity|discriminate]]].
    apply elem_of_union_l, elem_of_dom. exists "0x2". reflexivity.
  - apply (proj1 (proj2 (proj2 (proj2 (compare_spec {[ "x" := "0x1" ]} {[ "x" := "0x1" ]}))))).
    vm_compute. reflexivity.
Defined.

(** ** The display loop of [main] *)

Section Report.
Variables a b : gmap string string.

Lemma report_loop_spec slots : forall lines n,
  report_loop slots a b lines n =
    (lines ++ (line_of a b <$> slots),
     (n + length (filter (differs a b) (labels slots)))%nat).
Proof.
  induction slots as [|[lbl idx] rest IH]; intros lines n.
  - simpl. by rewrite app_nil_r, Nat.add_0_r.
  - simpl report_loop. rewrite IH, <- app_assoc.
    unfold labels. rewrite !fmap_cons, filter_cons. simpl fst.
    f_equal. destruct (decide (differs a b lbl)) as [Hd|Hd].
    + rewrite bool_decide_eq_true_2 by exact Hd. simpl. lia.
    + rewrite bool_decide_eq_false_2 by exact Hd. reflexivity.
Qed.

Lemma labels_sorted_keys slots :
  NoDup (labels slots) ->
  dom a = list_to_set (labels slots) -> dom b = list_to_set (labels slots) ->
  labels slots ≡ₚ sorted (elements (dom a ∪ dom b)).
Proof.
  intros Hnd Ha Hb. apply NoDup_Permutation; [exact Hnd|apply NoDup_sorted_keys|].
  intros x. rewrite elem_of_sorted_keys, Ha, Hb, elem_of_union, elem_of_list_to_set.
  tauto.
Qed.

Lemma report_loop_compare slots :
  NoDup (labels slots) ->
  dom a = list_to_set (labels slots) -> dom b = list_to_set (labels slots) ->
  (report_loop slots a b [] 0).2 = length (compare a b).1.
Proof.
  intros Hnd Ha Hb. rewrite report_loop_spec, compare_diffs, length_fmap. simpl.
  apply Permutation_length, filter_Permutation. by apply labels_sorted_keys.
Qed.

Lemma report_loop_ok slots :
  dom a = list_to_set (labels slots) -> dom b = list_to_set (labels slots) ->
  Nat.eqb (report_loop slots a b [] 0).2 0 = (compare a b).2.
Proof.
  intros Ha Hb. rewrite report_loop_spec, compare_ok. simpl.
  destruct (filter (differs a b) (labels slots)) as [|k l] eqn:E.
  - simpl. symmetry. apply bool_decide_eq_true.
    destruct (filter _ (sorted _)) as [|k' l'] eqn:E'; [reflexivity|].
    assert (k' ∈ filter (differs a b) (labels slots)) as Hk; [|rewrite E in Hk; by apply elem_of_nil in Hk].
    assert (k' ∈ filter (differs a b) (sorted (elements (dom a ∪ dom b)))) as Hk'
      by (rewrite E'; left).
    apply list_elem_of_filter in Hk' as [Hd Hin]. apply list_elem_of_filter.
    split; [exact Hd|].
    apply elem_of_sorted_keys in Hin. rewrite Ha, Hb in Hin.
    apply elem_of_union in Hin. rewrite !elem_of_list_to_set in Hin. tauto.
  - simpl. symmetry. apply bool_decide_eq_false. intros E'.
    assert (k ∈ filter (differs a b) (labels slots)) as Hk by (rewrite E; left).
    apply list_elem_of_filter in Hk as [Hd Hin].
    assert (k ∈ filter (differs a b) (sorted (elements (dom a ∪ dom b)))) as Hk'.
    { apply list_elem_of_filter. split; [exact Hd|].
      apply elem_of_sorted_keys. rewrite Ha. apply elem_of_union_l.
      by apply elem_of_list_to_set. }
    rewrite E' in Hk'. by apply elem_of_nil in Hk'.
Qed.

End Report.

Lemma read_slots_dom w w3 addr block_id slots t out t' :
  read_slots w w3 addr block_id slots t = (inl out, t') ->
  dom out = list_to_set (labels slots).
Proof.
  unfold read_slots. intros H%read_slots_loop_dom.
  by rewrite H, dom_empty_L, union_empty_l_L.
Qed.

(** Claim C9.  The keys of the map [read_slots] returns are exactly the
    labels of the slot list.  Two maps read with the same slot list have the
    same keys, and every line of the display loop of [main] shows values
    that are in the maps: the lookup never falls back on ["MISSING"]. *)
Theorem read_slots_keys (w : world) (addr block_a block_b : string) (sa sb : side)
    (slots : list Slot) (ta ta' tb tb' : trace) (a b : gmap string string) :
  read_slots w sa addr block_a slots ta = (inl a, ta') ->
  read_slots w sb addr block_b slots tb = (inl b, tb') ->
  dom a = list_to_set (labels slots)
  /\ dom a = dom b
  /\ Forall (fun line : string * string * string * bool =>
               let '(lbl, va, vb, _) := line in
               a !! lbl = Some va /\ b !! lbl = Some vb)
            (report_loop slots a b [] 0).1.
Proof.
  intros Ha%read_slots_dom Hb%read_slots_dom.
  split; [exact Ha|]. split; [by rewrite Ha, Hb|].
  rewrite report_loop_spec. simpl. apply Forall_fmap, Forall_forall.
  intros [lbl idx] Hin. unfold compose, line_of, get. simpl.
  assert (lbl ∈ labels slots) as Hl.
  { unfold labels. apply list_elem_of_fmap. by exists (lbl, idx). }
  assert (is_Some (a !! lbl)) as [va Hva].
  { apply elem_of_dom. rewrite Ha. by apply elem_of_list_to_set. }
  assert (is_Some (b !! lbl)) as [vb Hvb].
  { apply elem_of_dom. rewrite Hb. by apply elem_of_list_to_set. }
  by rewrite Hva, Hvb.
Qed.

Lemma read_slots_keys_witness :
  exists a b,
    dom a = ({[ "p"; "q" ]} : gset string) /\ dom a = dom b
    /\ (report_loop [("p", 0); ("q", 2)] a b [] 0).1
       = [("p", "0x00", "0x00", true); ("q", "0x0a", "0x0b", false)].
Proof.
  destruct (read_slots_loop_total sample_world EndA "0xabc" "latest"
              [("p", 0); ("q", 2)] ∅ []) as [a Ha].
  destruct (read_slots_loop_total sample_world EndB "0xabc" "latest"
              [("p", 0); ("q", 2)] ∅ []) as [b Hb].
  exists a, b.
  destruct (read_slots_keys sample_world "0xabc" "latest" "latest" EndA EndB
              [("p", 0); ("q", 2)] [] _ [] _ a b Ha Hb) as (Hd & Hab & Hlines).
  split; [|split; [exact Hab|]].
  - rewrite Hd. simpl. by rewrite union_empty_r_L.
  - injection Ha as <-. injection Hb as <-. vm_compute. reflexivity.
Defined.

(** Claim C10.  For a slot list whose labels are pairwise distinct and the
    two maps read with it, the mismatch count of the display loop of [main]
    is the length of the mismatch list of [compare] on the two maps, and the
    test [mismatches == 0] that decides the exit code has the value of the
    boolean [compare] returns.  ([main] calls [report_loop], not
    [compare].) *)
Theorem mismatches_agree (w : world) (addr block_a block_b : string)
    (slots : list Slot) (ta ta' tb tb' : trace) (a b : gmap string string) :
  NoDup (labels slots) ->
  read_slots w EndA addr block_a slots ta = (inl a, ta') ->
  read_slots w EndB addr block_b slots tb = (inl b, tb') ->
  (report_loop slots a b [] 0).2 = length (compare a b).1
  /\ Nat.eqb (report_loop slots a b [] 0).2 0 = (compare a b).2.
Proof.
  intros Hnd Ha%read_slots_dom Hb%read_slots_dom. split.
  - by apply report_loop_compare.
  - by apply report_loop_ok.
Qed.

Lemma mismatches_agree_witness :
  exists a b,
    (report_loop [("p", 0); ("q", 2); ("r", 1)] a b [] 0).2 = length (compare a b).1
    /\ Nat.eqb (report_loop [("p", 0); ("q", 2); ("r", 1)] a b [] 0).2 0 = (compare a b).2
    /\ (compare a b).1 = [("q", "0x0a", "0x0b")].
Proof.
  destruct (read_slots_loop_total sample_world EndA "0xabc" "latest"
              [("p", 0); ("q", 2); ("r", 1)] ∅ []) as [a Ha].
  destruct (read_slots_loop_total sample_world EndB "0xabc" "latest"
              [("p", 0); ("q", 2); ("r", 1)] ∅ []) as [b Hb].
  exists a, b.
  assert (NoDup (labels [("p", 0); ("q", 2); ("r", 1)])) as Hnd.
  { repeat (constructor; [by (intros Hin; repeat (apply elem_of_cons in Hin as [[=]|Hin]);
                              apply elem_of_nil in Hin)|]).
    constructor. }
  destruct (mismatches_agree sample_world "0xabc" "latest" "latest"
              [("p", 0); ("q", 2); ("r", 1)] [] _ [] _ a b Hnd Ha Hb) as [Hn Hok].
  split; [exact Hn|]. split; [exact Hok|].
  injection Ha as <-. injection Hb as <-. vm_compute. reflexivity.
Defined.

(** ** [main] *)

Section Main.
Variables (w : world) (args : Args).

Lemma parse_slots_trace t x t' :
  parse_slots w args t = (x, t') ->
  (t' = t \/ exists path, t' = t ++ [EOpen path])
  /\ forall c, x <> inr (SystemExit c).
Proof.
  unfold parse_slots.
  destruct (truthy_list (slot args)).
  - rewrite lift_outcome. intros [= <- <-]. split; [by left|].
    intros c. by destruct (append_each _ _ _).
  - destruct (truthy_str (manifest args)).
    + unfold load_manifest, bind, emit, ret, throw.
      destruct (w_load w _) as [[]|]; rewrite ?lift_outcome; intros [= <- <-];
        (split; [right; eauto|]); intros c; try discriminate;
        by destruct (append_each _ _ _).
    + intros [= <- <-]. split; [by left|]. discriminate.
Qed.

(** [main], step by step. *)
Lemma main_steps :
  run w args =
    if negb (url_ok (rpc_a args)) then (inr (SystemExit 1), [])
    else if negb (url_ok (rpc_b args)) then (inr (SystemExit 1), [])
    else if negb (w_is_address w (address args)) then (inr (SystemExit 1), [])
    else
      match parse_slots w args [] with
      | (inr _, t1) => (inr (SystemExit 1), t1)
      | (inl slots, t1) =>
          if negb (w_connected w EndA) then (inr (SystemExit 1), t1 ++ [EConnect EndA])
          else if negb (w_connected w EndB)
          then (inr (SystemExit 1), (t1 ++ [EConnect EndA]) ++ [EConnect EndB])
          else
            match read_slots w EndA (w_checksum w (address args)) (block_a args) slots
                    ((t1 ++ [EConnect EndA]) ++ [EConnect EndB]) with
            | (inr r, t2) => (inr r, t2)
            | (inl a_vals, t2) =>
                match read_slots w EndB (w_checksum w (address args)) (block_b args)
                        slots t2 with
                | (inr r, t3) => (inr r, t3)
                | (inl b_vals, t3) =>
                    (inr (SystemExit
                            (if Nat.eqb (report_loop slots a_vals b_vals [] 0).2 0
                             then 0 else 2)), t3)
                end
            end
      end.
Proof.
  unfold run, main, bind. cbn [validate_urls]. fold (url_ok (rpc_a args)) (url_ok (rpc_b args)).
  destruct (url_ok (rpc_a args)); [|reflexivity].
  destruct (url_ok (rpc_b args)); [|reflexivity].
  cbn [negb]. unfold ret at 1. unfold try_except, bind, to_checksum.
  destruct (w_is_address w (address args)); [|reflexivity].
  cbn [negb lift]. unfold ret at 1.
  destruct (parse_slots w args []) as [[slots|r] t1] eqn:Hp.
  - unfold ret at 1. unfold is_connected, bind, emit, ret at 1.
    destruct (w_connected w EndA); [|reflexivity]. cbn [negb].
    unfold ret at 1.
    destruct (w_connected w EndB); [|reflexivity]. cbn [negb].
    destruct (read_slots w EndA _ _ _ _) as [[a_vals|r] t2]; [|reflexivity].
    destruct (read_slots w EndB _ _ _ _) as [[b_vals|r] t3]; reflexivity.
  - destruct r as [e|msg|c]; try reflexivity.
    exfalso. by apply (proj2 (parse_slots_trace _ _ _ Hp) c).
Qed.

End Main.

Section ExitCode.
Variables (a b : gmap string string) (slots : list Slot).
Hypothesis Ha : dom a = list_to_set (labels slots).
Hypothesis Hb : dom b = list_to_set (labels slots).

Lemma differs_lookup s : s ∈ slots -> differs a b s.1 <-> a !! s.1 <> b !! s.1.
Proof.
  intros Hin.
  assert (s.1 ∈ labels slots) as Hl by (unfold labels; by apply list_elem_of_fmap_2).
  assert (is_Some (a !! s.1)) as [va Hva].
  { apply elem_of_dom. rewrite Ha. by apply elem_of_list_to_set. }
  assert (is_Some (b !! s.1)) as [vb Hvb].
  { apply elem_of_dom. rewrite Hb. by apply elem_of_list_to_set. }
  unfold differs, get. rewrite Hva, Hvb. simpl. split; congruence.
Qed.

Lemma mismatches_zero :
  Forall (fun s : Slot => a !! s.1 = b !! s.1) slots ->
  (report_loop slots a b [] 0).2 = 0%nat.
Proof.
  intros Hall. rewrite report_loop_spec. simpl.
  destruct (filter (differs a b) (labels slots)) as [|k l] eqn:E; [reflexivity|].
  assert (k ∈ filter (differs a b) (labels slots)) as Hk by (rewrite E; left).
  apply list_elem_of_filter in Hk as [Hd Hin].
  unfold labels in Hin. apply list_elem_of_fmap in Hin as (s & -> & Hs).
  rewrite Forall_forall in Hall. apply differs_lookup in Hd; [|exact Hs].
  by specialize (Hall s Hs).
Qed.

Lemma mismatches_positive :
  Exists (fun s : Slot => a !! s.1 <> b !! s.1) slots ->
  (report_loop slots a b [] 0).2 <> 0%nat.
Proof.
  intros (s & Hs & Hne)%Exists_exists. rewrite report_loop_spec. simpl.
  assert (s.1 ∈ filter (differs a b) (labels slots)) as Hk.
  { apply list_elem_of_filter. split; [by apply differs_lookup|].
    unfold labels. by apply list_elem_of_fmap_2. }
  destruct (filter (differs a b) (labels slots)); [by apply elem_of_nil in Hk|discriminate].
Qed.

End ExitCode.

(** Claim C2.  The exit code of [main] is 1, and no storage word has been
    read, when an RPC URL has a bad scheme, the address is not an address,
    [parse_slots] raises (bad slot hex, no slot source, bad manifest) or an
    endpoint is not connected.  Otherwise both endpoints are read with the
    parsed slots, and the exit code is 0 when the two values of every slot are
    equal and 2 when those of some slot differ. *)
Theorem main_exit_code (w : world) (args : Args) :
  (url_ok (rpc_a args) = false \/ url_ok (rpc_b args) = false
   \/ w_is_address w (address args) = false
   \/ (exists r t1, parse_slots w args [] = (inr r, t1))
   \/ w_connected w EndA = false \/ w_connected w EndB = false ->
   exit_code (run w args) = 1
   /\ Forall (fun e => is_read e = false) (run w args).2)
  /\ (forall slots t1,
        url_ok (rpc_a args) = true -> url_ok (rpc_b args) = true ->
        w_is_address w (address args) = true ->
        parse_slots w args [] = (inl slots, t1) ->
        w_connected w EndA = true -> w_connected w EndB = true ->
        exists a_vals b_vals t2 t3,
          read_slots w EndA (w_checksum w (address args)) (block_a args) slots
            (t1 ++ [EConnect EndA; EConnect EndB]) = (inl a_vals, t2)
          /\ read_slots w EndB (w_checksum w (address args)) (block_b args) slots t2
             = (inl b_vals, t3)
          /\ (run w args).2 = t3
          /\ (Forall (fun s : Slot => a_vals !! s.1 = b_vals !! s.1) slots ->
              exit_code (run w args) = 0)
          /\ (Exists (fun s : Slot => a_vals !! s.1 <> b_vals !! s.1) slots ->
              exit_code (run w args) = 2)).
Proof.
  split.
  - intros Hfail. rewrite main_steps.
    destruct (url_ok (rpc_a args)) eqn:Hua; cbn [negb]; [|split; [reflexivity|constructor]].
    destruct (url_ok (rpc_b args)) eqn:Hub; cbn [negb]; [|split; [reflexivity|constructor]].
    destruct (w_is_address w (address args)) eqn:Hadr; cbn [negb];
      [|split; [reflexivity|constructor]].
    destruct (parse_slots w args []) as [x t1] eqn:Hp.
    assert (Forall (fun e => is_read e = false) t1) as Ht1.
    { destruct (parse_slots_trace w args [] x t1 Hp) as [[->|[path ->]] _];
        repeat constructor. }
    destruct x as [slots|r]; [|split; [reflexivity|exact Ht1]].
    destruct (w_connected w EndA) eqn:Hca; cbn [negb].
    2:{ split; [reflexivity|]. apply Forall_app. split; [exact Ht1|repeat constructor]. }
    destruct (w_connected w EndB) eqn:Hcb; cbn [negb].
    2:{ split; [reflexivity|]. apply Forall_app. split; [|repeat constructor].
        apply Forall_app. split; [exact Ht1|repeat constructor]. }
    exfalso. destruct Hfail as [H|[H|[H|[(r & t' & H)|[H|H]]]]]; congruence.
  - intros slots t1 Hua Hub Hadr Hp Hca Hcb.
    rewrite main_steps, Hua, Hub, Hadr, Hp, Hca, Hcb. cbn [negb].
    rewrite <- app_assoc. simpl app.
    unfold read_slots.
    destruct (read_slots_loop_total w EndA (w_checksum w (address args)) (block_a args)
                slots ∅ (t1 ++ [EConnect EndA; EConnect EndB])) as [a_vals Ha].
    rewrite Ha.
    destruct (read_slots_loop_total w EndB (w_checksum w (address args)) (block_b args)
                slots ∅ ((t1 ++ [EConnect EndA; EConnect EndB])
                         ++ map (read_event EndA (w_checksum w (address args)) (block_a args))
                              slots)) as [b_vals Hb].
    rewrite Hb.
    exists a_vals, b_vals. do 2 eexists.
    split; [reflexivity|]. split; [exact Hb|]. split; [reflexivity|].
    pose proof (read_slots_dom _ _ _ _ _ _ _ _ Ha) as Hda.
    pose proof (read_slots_dom _ _ _ _ _ _ _ _ Hb) as Hdb.
    unfold exit_code. simpl fst. split.
    + intros Hall. by rewrite (mismatches_zero a_vals b_vals slots Hda Hdb Hall).
    + intros Hex. pose proof (mismatches_positive a_vals b_vals slots Hda Hdb Hex) as Hn.
      by destruct (report_loop slots a_vals b_vals [] 0).2.
Qed.

Lemma main_exit_code_witness :
  exit_code (run sample_world (args_of_slots ["zz"])) = 1
  /\ exit_code (run sample_world (args_of_slots ["p:0x0"; "r:0x1"])) = 0
  /\ exit_code (run sample_world (args_of_slots ["p:0x0"; "q:0x2"])) = 2.
Proof.
  split; [|split].
  - apply (proj1 (main_exit_code sample_world (args_of_slots ["zz"]))).
    right; right; right; left. eexists _, _. reflexivity.
  - destruct (proj2 (main_exit_code sample_world (args_of_slots ["p:0x0"; "r:0x1"]))
                [("p", 0); ("r", 1)] [] eq_refl eq_refl eq_refl eq_refl eq_refl eq_refl)
      as (a & b & t2 & t3 & Ha & Hb & _ & Hzero & _).
    apply Hzero.
    vm_compute in Ha. injection Ha as <- <-.
    vm_compute in Hb. injection Hb as <- <-.
    repeat constructor.
  - destruct (proj2 (main_exit_code sample_world (args_of_slots ["p:0x0"; "q:0x2"]))
                [("p", 0); ("q", 2)] [] eq_refl eq_refl eq_refl eq_refl eq_refl eq_refl)
      as (a & b & t2 & t3 & Ha & Hb & _ & _ & Htwo).
    apply Htwo.
    vm_compute in Ha. injection Ha as <- <-.
    vm_compute in Hb. injection Hb as <- <-.
    apply Exists_cons_tl, Exists_cons_hd. vm_compute. discriminate.
Defined.

(** With a repeated label the two counts part: the display loop counts
    slots, [compare] counts labels. *)
Example mismatches_count_duplicates :
  (report_loop [("q", 2); ("q", 2)] {[ "q" := "0x0a" ]} {[ "q" := "0x0b" ]} [] 0).2 = 2%nat
  /\ length (compare {[ "q" := "0x0a" ]} {[ "q" := "0x0b" ]}).1 = 1%nat.
Proof. split; vm_compute; reflexivity. Qed.

(** ** White space and letter case around a slot text *)

Section Padding.
Import PyStr HexText.

Lemma lower_char_idem c : lower_char (lower_char c) = lower_char c.
Proof. destruct c as [[] [] [] [] [] [] [] []]; reflexivity. Qed.

Lemma lower_idem s : lower (lower s) = lower s.
Proof. induction s as [|c s IH]; simpl; [done|]. by rewrite lower_char_idem, IH. Qed.

Lemma lstrip_lower s : lstrip (lower s) = lower (lstrip s).
Proof.
  induction s as [|c s IH]; simpl; [done|].
  rewrite lower_char_space. by destruct (is_space c).
Qed.

Lemma rstrip_lower s : rstrip (lower s) = lower (rstrip s).
Proof.
  induction s as [|c s IH]; simpl; [done|]. rewrite IH.
  destruct (rstrip s) as [|d r]; simpl; [|done].
  rewrite lower_char_space. by destruct (is_space c).
Qed.

Lemma strip_lower s : strip (lower s) = lower (strip s).
Proof. unfold strip. by rewrite lstrip_lower, rstrip_lower. Qed.

Lemma lstrip_all_space ws : all_space ws = true -> lstrip ws = EmptyString.
Proof.
  induction ws as [|c ws IH]; simpl; [done|].
  intros [Hc Hws]%andb_prop. rewrite Hc. by apply IH.
Qed.

Lemma rstrip_all_space ws : all_space ws = true -> rstrip ws = EmptyString.
Proof.
  induction ws as [|c ws IH]; simpl; [done|].
  intros [Hc Hws]%andb_prop. by rewrite (IH Hws), Hc.
Qed.

Lemma lstrip_app_space ws s : all_space ws = true -> lstrip (ws +:+ s) = lstrip s.
Proof.
  induction ws as [|c ws IH]; [done|]. simpl all_space.
  intros [Hc Hws]%andb_prop. change (String c ws +:+ s) with (String c (ws +:+ s)).
  simpl. rewrite Hc. by apply IH.
Qed.

Lemma rstrip_app_space s ws : all_space ws = true -> rstrip (s +:+ ws) = rstrip s.
Proof.
  intros Hws. induction s as [|c s IH].
  - change (EmptyString +:+ ws) with ws. by rewrite rstrip_all_space.
  - change (String c s +:+ ws) with (String c (s +:+ ws)). simpl. by rewrite IH.
Qed.

Lemma lstrip_app s t :
  lstrip (s +:+ t) = if all_space s then lstrip t else lstrip s +:+ t.
Proof.
  induction s as [|c s IH]; [done|].
  change (String c s +:+ t) with (String c (s +:+ t)). simpl.
  destruct (is_space c); [exact IH|reflexivity].
Qed.

Lemma strip_padding ws1 s ws2 :
  all_space ws1 = true -> all_space ws2 = true ->
  strip (ws1 +:+ s +:+ ws2) = strip s.
Proof.
  intros H1 H2. unfold strip. rewrite (lstrip_app_space _ _ H1), lstrip_app.
  destruct (all_space s) eqn:Hs.
  - by rewrite (lstrip_all_space _ H2), (lstrip_all_space _ Hs).
  - by apply rstrip_app_space.
Qed.

(** The value [parse_slot_hex] returns depends on the text only through
    its stripped, lower-cased form. *)
Lemma parse_slot_hex_Ok_same raw raw' v :
  lower (strip raw) = lower (strip raw') ->
  parse_slot_hex raw = Ok v -> parse_slot_hex raw' = Ok v.
Proof.
  intros Heq (p & Hs & Hg & ->)%parse_slot_hex_Ok.
  rewrite Heq in Hs. by rewrite (parse_slot_hex_prefix raw' p Hs), Hg.
Qed.

End Padding.

(** Property X1.  White space around a slot text and the case of its
    letters do not matter to the value [parse_slot_hex] returns: two texts
    that agree up to surrounding white space and letter case parse to the
    same index, or both fail. *)
Theorem parse_slot_hex_padding_case (ws1 s s' ws2 : string) (v : Z) :
  all_space ws1 = true -> all_space ws2 = true ->
  PyStr.lower s = PyStr.lower s' ->
  (parse_slot_hex (ws1 +:+ s +:+ ws2) = Ok v <-> parse_slot_hex s' = Ok v).
Proof.
  intros H1 H2 Hl.
  assert (PyStr.lower (PyStr.strip (ws1 +:+ s +:+ ws2)) = PyStr.lower (PyStr.strip s')) as Heq.
  { rewrite (strip_padding _ _ _ H1 H2), <- !strip_lower. by rewrite Hl. }
  split; apply parse_slot_hex_Ok_same; [exact Heq|symmetry; exact Heq].
Qed.

Lemma parse_slot_hex_padding_case_witness :
  parse_slot_hex "  0XaB " = Ok 171 <-> parse_slot_hex "0xAb" = Ok 171.
Proof.
  apply (parse_slot_hex_padding_case "  " "0XaB" "0xAb" " " 171); reflexivity.
Defined.

(** ** Plain hexadecimal text and [hex] *)

Section PlainHex.
Import PyStr HexText.

Lemma hex_digit_lower_char c : hex_digit (lower_char c) = hex_digit c.
Proof. destruct c as [[] [] [] [] [] [] [] []]; reflexivity. Qed.

Lemma hex_digit_not_space c : is_hex_digit c = true -> is_space c = false.
Proof. destruct c as [[] [] [] [] [] [] [] []]; vm_compute; congruence. Qed.

Lemma hex_digit_not_underscore c : is_hex_digit c = true -> Ascii.eqb c "_" = false.
Proof. destruct c as [[] [] [] [] [] [] [] []]; vm_compute; congruence. Qed.

Lemma all_hex_lower p : all_hex (lower p) = all_hex p.
Proof.
  induction p as [|c p IH]; simpl; [done|].
  unfold is_hex_digit. by rewrite hex_digit_lower_char, IH.
Qed.

Lemma hex_value_lower p : hex_value (lower p) = hex_value p.
Proof.
  induction p as [|c p IH]; simpl; [done|].
  by rewrite hex_digit_lower_char, length_lower, IH.
Qed.

Lemma all_hex_remove_underscores p : all_hex p = true -> remove_underscores p = p.
Proof.
  induction p as [|c p IH]; simpl; [done|].
  intros [Hc Hp]%andb_prop. by rewrite (hex_digit_not_underscore c Hc), (IH Hp).
Qed.

Lemma all_hex_no_double p : all_hex p = true -> has_double_underscore p = false.
Proof.
  induction p as [|c p IH]; simpl; [done|].
  intros [Hc Hp]%andb_prop. destruct p as [|d p]; [done|].
  by rewrite (hex_digit_not_underscore c Hc), (IH Hp).
Qed.

Lemma all_hex_last p c : all_hex p = true -> last_char p = Some c -> is_hex_digit c = true.
Proof.
  induction p as [|d p IH]; simpl; [discriminate|].
  intros [Hd Hp]%andb_prop. destruct p as [|e p]; [by intros [= <-]|by apply IH].
Qed.

Lemma plain_hex_grouped p : plain_hex p = true -> grouped_hex p = true.
Proof.
  intros Hp. pose proof Hp as [Hne Hall]%andb_prop. unfold grouped_hex.
  rewrite (all_hex_no_double p Hall), (all_hex_remove_underscores p Hall), Hp.
  unfold ends_with_underscore. destruct (last_char p) as [c|] eqn:E; [|done].
  by rewrite (hex_digit_not_underscore c (all_hex_last p c Hall E)).
Qed.

Lemma rstrip_hex a p :
  is_space a = false -> all_hex p = true -> rstrip (String a p) = String a p.
Proof.
  revert a. induction p as [|c p IH]; intros a Ha; simpl.
  - by rewrite Ha.
  - intros [Hc Hp]%andb_prop.
    pose proof (IH c (hex_digit_not_space c Hc) Hp) as E. simpl in E. by rewrite E.
Qed.

(** ["0x"] and digits, nothing else. *)
Lemma parse_slot_hex_0x_plain p :
  plain_hex p = true -> parse_slot_hex (String "0" (String "x" p)) = Ok (hex_value p).
Proof.
  intros Hp. pose proof Hp as [Hne Hall]%andb_prop.
  assert (lower (strip (String "0" (String "x" p))) = String "0" (String "x" (lower p))) as Hs.
  { unfold strip. change (lstrip (String "0" (String "x" p))) with (String "0" (String "x" p)).
    assert (rstrip (String "0" (String "x" p)) = String "0" (String "x" p)) as ->; [|done].
    pose proof (rstrip_hex "x" p eq_refl Hall) as E. simpl. simpl in E. by rewrite E. }
  rewrite (parse_slot_hex_prefix _ _ Hs).
  assert (plain_hex (lower p) = true) as Hlp.
  { unfold plain_hex. rewrite all_hex_lower, Hall. by destruct p. }
  rewrite (plain_hex_grouped _ Hlp). unfold grouped_value.
  apply andb_prop in Hlp as [_ Hlall].
  by rewrite (all_hex_remove_underscores _ Hlall), hex_value_lower.
Qed.

End PlainHex.

(** Property X2.  A slot text made of ["0x"] or ["0X"], one hexadecimal
    digit or more in either case, and white space around it is accepted,
    and its index is the positional value of the digits. *)
Theorem parse_slot_hex_plain (ws1 p ws2 : string) :
  all_space ws1 = true -> all_space ws2 = true -> HexText.plain_hex p = true ->
  parse_slot_hex (ws1 +:+ String "0" (String "x" p) +:+ ws2) = Ok (HexText.hex_value p)
  /\ parse_slot_hex (ws1 +:+ String "0" (String "X" p) +:+ ws2) = Ok (HexText.hex_value p).
Proof.
  intros H1 H2 Hp. pose proof (parse_slot_hex_0x_plain p Hp) as H0.
  split; (eapply parse_slot_hex_Ok_same; [|exact H0]);
    rewrite (strip_padding _ _ _ H1 H2), <- !strip_lower; reflexivity.
Qed.

Lemma parse_slot_hex_plain_witness :
  parse_slot_hex " 0xFf " = Ok 255 /\ parse_slot_hex " 0XFf " = Ok 255.
Proof.
  apply (parse_slot_hex_plain " " "Ff" " "); reflexivity.
Defined.

(** ** [hex] *)

Section PyHex.
Import PyStr HexText.

Lemma hex_char_digit d :
  0 <= d < 16 ->
  hex_digit (hex_char d) = Some d /\ lower_char (hex_char d) = hex_char d.
Proof.
  intros Hd.
  assert (d = 0 \/ d = 1 \/ d = 2 \/ d = 3 \/ d = 4 \/ d = 5 \/ d = 6 \/ d = 7 \/ d = 8
          \/ d = 9 \/ d = 10 \/ d = 11 \/ d = 12 \/ d = 13 \/ d = 14 \/ d = 15) as H by lia.
  repeat (destruct H as [->|H]; [split; reflexivity|]). subst d. split; reflexivity.
Qed.

Lemma all_hex_app s t : all_hex (s +:+ t) = all_hex s && all_hex t.
Proof.
  induction s as [|c s IH]; [done|].
  change (String c s +:+ t) with (String c (s +:+ t)). simpl. by rewrite IH, andb_assoc.
Qed.

Lemma hex_fold_app acc s t : hex_fold acc (s +:+ t) = hex_fold (hex_fold acc s) t.
Proof.
  revert acc. induction s as [|c s IH]; intros acc; [done|].
  change (String c s +:+ t) with (String c (s +:+ t)). simpl. apply IH.
Qed.

Lemma hex_value_snoc s c :
  hex_value (s +:+ String c EmptyString) = 16 * hex_value s + default 0 (hex_digit c).
Proof.
  pose proof (hex_fold_value 0 (s +:+ String c EmptyString)) as H1.
  pose proof (hex_fold_value 0 s) as H2.
  rewrite hex_fold_app in H1. simpl hex_fold in H1. lia.
Qed.

Lemma nonempty_app_r s t : nonempty t = true -> nonempty (s +:+ t) = true.
Proof. destruct s; [done|reflexivity]. Qed.

Lemma hex_digits_fuel_S fuel n :
  hex_digits_fuel (S fuel) n =
    if n <? 16 then String (hex_char n) EmptyString
    else hex_digits_fuel fuel (n / 16) +:+ String (hex_char (n mod 16)) EmptyString.
Proof. reflexivity. Qed.

(** With fuel for its digits, the digit string of [n] is plain
    hexadecimal and is worth [n]. *)
Lemma hex_digits_fuel_spec fuel : forall n,
  0 <= n < 16 ^ Z.of_nat (S fuel) ->
  plain_hex (hex_digits_fuel (S fuel) n) = true
  /\ hex_value (hex_digits_fuel (S fuel) n) = n.
Proof.
  induction fuel as [|fuel IH]; intros n Hn.
  - change (16 ^ Z.of_nat 1) with 16 in Hn. simpl.
    assert ((n <? 16) = true) as -> by lia.
    destruct (hex_char_digit n Hn) as [Hd _].
    unfold plain_hex. simpl. unfold is_hex_digit. rewrite Hd. simpl. split; [done|lia].
  - rewrite hex_digits_fuel_S. destruct (n <? 16) eqn:E.
    + apply Z.ltb_lt in E. destruct (hex_char_digit n (conj (proj1 Hn) E)) as [Hd _].
      unfold plain_hex. simpl. unfold is_hex_digit. rewrite Hd. simpl. split; [done|lia].
    + apply Z.ltb_ge in E.
      assert (0 <= n / 16 < 16 ^ Z.of_nat (S fuel)) as Hq.
      { rewrite (Nat2Z.inj_succ (S fuel)), Z.pow_succ_r in Hn by lia.
        split; [apply Z.div_pos; lia|apply Z.div_lt_upper_bound; lia]. }
      destruct (IH (n / 16) Hq) as [Hp Hv].
      assert (0 <= n mod 16 < 16) as Hm by (apply Z.mod_pos_bound; lia).
      destruct (hex_char_digit (n mod 16) Hm) as [Hd _].
      apply andb_prop in Hp as [_ Hall]. split.
      * unfold plain_hex. rewrite all_hex_app, Hall. simpl. unfold is_hex_digit.
        rewrite Hd. simpl. rewrite andb_true_r. by apply nonempty_app_r.
      * rewrite hex_value_snoc, Hv, Hd. simpl. pose proof (Z.div_mod n 16). lia.
Qed.

Lemma hex_digits_spec n :
  0 <= n -> plain_hex (hex_digits n) = true /\ hex_value (hex_digits n) = n.
Proof.
  intros Hn. unfold hex_digits. apply hex_digits_fuel_spec. split; [exact Hn|].
  rewrite Nat2Z.inj_succ, Z2Nat.id by apply Z.log2_nonneg.
  destruct (Z.eq_dec n 0) as [->|Hne]; [reflexivity|].
  pose proof (Z.log2_spec n ltac:(lia)) as [_ Hlt].
  eapply Z.lt_le_trans; [exact Hlt|].
  apply Z.pow_le_mono_l. lia.
Qed.

Lemma parse_slot_hex_py_hex n : 0 <= n -> parse_slot_hex (py_hex n) = Ok n.
Proof.
  intros Hn. unfold py_hex. assert ((n <? 0) = false) as -> by lia.
  destruct (hex_digits_spec n Hn) as [Hp Hv].
  change ("0x" +:+ hex_digits n) with (String "0" (String "x" (hex_digits n))).
  by rewrite (parse_slot_hex_0x_plain _ Hp), Hv.
Qed.

End PyHex.

Lemma rstrip_cons_nonspace c s :
  PyStr.is_space c = false -> PyStr.rstrip (String c s) = String c (PyStr.rstrip s).
Proof. intros Hc. simpl. destruct (PyStr.rstrip s); [by rewrite Hc|done]. Qed.

Lemma parse_slots_nonneg w args t slots t' :
  parse_slots w args t = (inl slots, t') -> Forall (fun s : Slot => 0 <= s.2) slots.
Proof.
  intros [(items & H)|[(l & H)|(items & H)]]%parse_slots_inl;
    eapply append_each_Forall; try exact H; cbv beta.
  - intros x s (raw & Hr%parse_slot_hex_bounds)%slot_of_item_index. lia.
  - intros x s [_ Hr%parse_slot_hex_bounds]%slot_of_element_inv. lia.
  - intros x s (_ & text & _ & Hr%parse_slot_hex_bounds)%slot_of_entry_inv. lia.
Qed.

Example py_hex_samples :
  py_hex 0 = "0x0" /\ py_hex 255 = "0xff" /\ py_hex 4096 = "0x1000"
  /\ py_hex (-255) = "-0xff" /\ py_hex two_256 = text_two_256.
Proof. repeat split; reflexivity. Qed.

(** Property X3.  [hex] and [parse_slot_hex] round-trip on slot indices:
    the text [hex] prints for a non-negative integer parses back to that
    integer, and the text it prints for a negative one is rejected for its
    missing ["0x"] prefix. *)
Theorem py_hex_round_trip (n : Z) :
  (0 <= n -> parse_slot_hex (py_hex n) = Ok n)
  /\ (n < 0 ->
      parse_slot_hex (py_hex n)
        = Raise (ValueError ("Slot must be 0x-prefixed hex: " +:+ py_hex n))).
Proof.
  split; [apply parse_slot_hex_py_hex|].
  intros Hn. apply parse_slot_hex_no_prefix.
  unfold py_hex. assert ((n <? 0) = true) as -> by lia.
  change ("-0x" +:+ hex_digits (- n)) with (String "-" (String "0" (String "x" (hex_digits (- n))))).
  unfold PyStr.strip. simpl PyStr.lstrip.
  rewrite rstrip_cons_nonspace by reflexivity. reflexivity.
Qed.

Lemma py_hex_round_trip_witness :
  parse_slot_hex (py_hex 48879) = Ok 48879
  /\ parse_slot_hex (py_hex (-1)) = Raise (ValueError "Slot must be 0x-prefixed hex: -0x1").
Proof.
  split.
  - apply (proj1 (py_hex_round_trip 48879)). lia.
  - apply (proj2 (py_hex_round_trip (-1))). lia.
Defined.

(** Property X4.  The slot list of the JSON report can be read back: for
    the slots [parse_slots] returned, each report entry carries the slot's
    label and an index text that [parse_slot_hex] maps to the slot's
    index. *)
Theorem slots_json_round_trip (w : world) (args : Args) (t t' : trace)
    (slots : list Slot) :
  parse_slots w args t = (inl slots, t') ->
  Forall2 (fun (s : Slot) (entry : string * string) =>
             entry.1 = s.1 /\ parse_slot_hex entry.2 = Ok s.2)
          slots (slots_json slots).
Proof.
  intros Hnn%parse_slots_nonneg. unfold slots_json.
  apply Forall2_fmap_r, Forall_Forall2_diag.
  eapply Forall_impl; [exact Hnn|].
  intros s Hs. simpl. split; [reflexivity|]. by apply parse_slot_hex_py_hex.
Qed.

Lemma slots_json_round_trip_witness :
  Forall2 (fun (s : Slot) (entry : string * string) =>
             entry.1 = s.1 /\ parse_slot_hex entry.2 = Ok s.2)
          [("owner", 10); ("0X1f", 31)] [("owner", "0xa"); ("0X1f", "0x1f")].
Proof.
  apply (slots_json_round_trip quiet_world (args_of_slots ["owner:0xA"; "0X1f"]) [] []).
  reflexivity.
Defined.

(** ** The format of a [--slot] item *)

Section SlotItem.
Import PyStr HexText.

Lemma split_once_Some sep s l r :
  split_once sep s = Some (l, r) <->
  s = l +:+ String sep r /\ has_char sep l = false.
Proof.
  revert l. induction s as [|c s IH]; intros l; simpl.
  - split; [discriminate|]. intros [H _]. destruct l; discriminate.
  - destruct (Ascii.eqb c sep) eqn:E.
    + apply Ascii.eqb_eq in E as ->. split.
      * intros [= <- <-]. done.
      * intros [H Hl]. destruct l as [|d l].
        -- by injection H as ->.
        -- injection H as <- _. simpl in Hl. by rewrite Ascii.eqb_refl in Hl.
    + split.
      * destruct (split_once sep s) as [[l' r']|]; [|discriminate].
        intros [= <- <-]. destruct (proj1 (IH l') eq_refl) as [-> Hl].
        split; [done|]. simpl. by rewrite E, Hl.
      * intros [H Hl]. destruct l as [|d l].
        -- injection H as -> _. by rewrite Ascii.eqb_refl in E.
        -- injection H as <- ->. simpl in Hl. apply orb_false_elim in Hl as [_ Hl].
           by rewrite (proj2 (IH l) (conj eq_refl Hl)).
Qed.

Lemma split_once_None sep s : split_once sep s = None <-> has_char sep s = false.
Proof.
  induction s as [|c s IH]; simpl; [done|].
  destruct (Ascii.eqb c sep); simpl; [done|].
  rewrite <- IH. by destruct (split_once sep s) as [[]|].
Qed.

Lemma has_char_lstrip c s :
  has_char c s = true -> is_space c = true \/ has_char c (lstrip s) = true.
Proof.
  induction s as [|d s IH]; simpl; [discriminate|].
  destruct (is_space d) eqn:Hd; [|by right].
  intros [->%Ascii.eqb_eq|H]%orb_prop; [by left|by apply IH].
Qed.

Lemma has_char_rstrip c s :
  has_char c s = true -> is_space c = true \/ has_char c (rstrip s) = true.
Proof.
  induction s as [|d s IH]; simpl; [discriminate|].
  intros [E|H]%orb_prop.
  - destruct (rstrip s); simpl; rewrite ?E; [|by right].
    apply Ascii.eqb_eq in E as <-.
    destruct (is_space d) eqn:Hd; [by left|right; simpl; by rewrite Ascii.eqb_refl].
  - destruct (IH H) as [Hs|Hr]; [by left|right].
    destruct (rstrip s); [discriminate|]. simpl in *. by rewrite Hr, orb_true_r.
Qed.

Lemma has_char_lower c s :
  has_char c s = true -> has_char (lower_char c) (lower s) = true.
Proof.
  induction s as [|d s IH]; simpl; [discriminate|].
  intros [->%Ascii.eqb_eq|H]%orb_prop; [by rewrite Ascii.eqb_refl|].
  by rewrite (IH H), orb_true_r.
Qed.

Lemma has_char_digits c p :
  all_hex (remove_underscores p) = true -> has_char c p = true ->
  Ascii.eqb c "_" = true \/ is_hex_digit c = true.
Proof.
  induction p as [|d p IH]; simpl; [discriminate|].
  destruct (Ascii.eqb d "_") eqn:Hd.
  - intros Hall [->%Ascii.eqb_eq|H]%orb_prop; [by left|by apply IH].
  - simpl. intros [Hh Hall]%andb_prop [->%Ascii.eqb_eq|H]%orb_prop; [by right|by apply IH].
Qed.

(** No colon in a text [parse_slot_hex] accepts. *)
Lemma parse_slot_hex_no_colon raw v :
  parse_slot_hex raw = Ok v -> has_char ":" raw = false.
Proof.
  intros (p & Hs & Hg & _)%parse_slot_hex_Ok.
  destruct (has_char ":" raw) eqn:E; [exfalso|reflexivity].
  assert (has_char ":" (strip raw) = true) as Hst.
  { unfold strip. destruct (has_char_lstrip _ _ E) as [?|H1]; [discriminate|].
    destruct (has_char_rstrip _ _ H1) as [?|H2]; [discriminate|exact H2]. }
  apply has_char_lower in Hst. rewrite Hs in Hst.
  change (lower_char ":") with ":"%char in Hst. simpl in Hst.
  unfold grouped_hex, plain_hex in Hg.
  apply andb_prop in Hg as [_ [_ Hall]%andb_prop].
  destruct (has_char_digits _ _ Hall Hst); discriminate.
Qed.

End SlotItem.

(** Property X5.  The format of a [--slot] item: an item is accepted with
    label [label] and index [idx] exactly when it has no colon, is its own
    label and parses to [idx], or it is [label], a colon and a text that
    parses to [idx], the label holding no colon. *)
Theorem slot_of_item_format (item label : string) (idx : Z) :
  slot_of_item item = Ok (label, idx) <->
  (has_char ":" item = false /\ label = item /\ parse_slot_hex item = Ok idx)
  \/ (exists raw, item = label +:+ String ":" raw
                  /\ has_char ":" label = false /\ parse_slot_hex raw = Ok idx).
Proof.
  unfold slot_of_item.
  destruct (PyStr.split_once ":" item) as [[l r]|] eqn:E.
  - apply split_once_Some in E as [-> Hl]. split.
    + destruct (parse_slot_hex r) eqn:Hr; [|discriminate]. intros [= <- <-]. right. eauto.
    + intros [(Hno & _ & _)|(raw & Heq & Hlabel & Hraw)].
      * exfalso. clear -Hno. induction l as [|c l IH]; simpl in Hno.
        -- discriminate.
        -- apply orb_false_elim in Hno as [_ Hno]. by apply IH.
      * assert (PyStr.split_once ":" (l +:+ String ":" r) = Some (label, raw)) as H1
          by (by apply split_once_Some).
        assert (PyStr.split_once ":" (l +:+ String ":" r) = Some (l, r)) as H2
          by (by apply split_once_Some).
        rewrite H1 in H2. injection H2 as -> ->. by rewrite Hraw.
  - pose proof (proj1 (split_once_None _ _) E) as Hno. split.
    + destruct (parse_slot_hex item) eqn:Hr; [|discriminate]. intros [= <- <-]. by left.
    + intros [(_ & -> & ->)|(raw & Heq & Hlabel & Hraw)]; [reflexivity|].
      exfalso. rewrite Heq in Hno. clear -Hno.
      induction label as [|c l IH]; simpl in Hno.
      * discriminate.
      * apply orb_false_elim in Hno as [_ Hno]. by apply IH.
Qed.

Lemma slot_of_item_format_witness :
  slot_of_item "total supply:0x2" = Ok ("total supply", 2)
  /\ slot_of_item " 0XfF" = Ok (" 0XfF", 255).
Proof.
  split.
  - apply (proj2 (slot_of_item_format "total supply:0x2" "total supply" 2)).
    right. exists "0x2". repeat split; reflexivity.
  - apply (proj2 (slot_of_item_format " 0XfF" " 0XfF" 255)).
    left. repeat split; reflexivity.
Defined.

(** Property X6.  A text that [parse_slot_hex] accepts holds no colon, so
    a bare item is its own label, exactly as typed; and an item that
    [slot_of_item] accepts holds at most one colon: none in its label and
    none after the first. *)
Theorem slot_of_item_colons (item : string) :
  (forall idx, parse_slot_hex item = Ok idx -> slot_of_item item = Ok (item, idx))
  /\ (forall label idx, slot_of_item item = Ok (label, idx) ->
        has_char ":" label = false
        /\ (label = item
            \/ exists raw, item = label +:+ String ":" raw /\ has_char ":" raw = false)).
Proof.
  split.
  - intros idx H. pose proof (parse_slot_hex_no_colon _ _ H) as Hno.
    unfold slot_of_item.
    apply split_once_None in Hno. by rewrite Hno, H.
  - intros label idx. unfold slot_of_item.
    destruct (PyStr.split_once ":" item) as [[l r]|] eqn:E.
    + apply split_once_Some in E as [-> Hl].
      destruct (parse_slot_hex r) eqn:Hr; [|discriminate]. intros [= <- <-].
      split; [exact Hl|]. right. exists r. split; [reflexivity|].
      by apply parse_slot_hex_no_colon in Hr.
    + apply split_once_None in E.
      destruct (parse_slot_hex item) eqn:Hr; [|discriminate]. intros [= <- <-].
      split; [exact E|by left].
Qed.

Lemma slot_of_item_colons_witness :
  slot_of_item "0x_2a" = Ok ("0x_2a", 42)
  /\ has_char ":" "owner" = false.
Proof.
  split.
  - apply (proj1 (slot_of_item_colons "0x_2a") 42). reflexivity.
  - apply (proj2 (slot_of_item_colons "owner:0x0") "owner" 0). reflexivity.
Defined.

(** ** The first malformed item *)

Lemma append_each_Raise {A} (f : A -> result Slot) l1 bad l2 e : forall acc,
  Forall (fun x => is_ok (f x) = true) l1 -> f bad = Raise e ->
  append_each f (l1 ++ bad :: l2) acc = Raise e.
Proof.
  induction l1 as [|x l1 IH]; intros acc Hall Hbad; simpl.
  - by rewrite Hbad.
  - inversion Hall as [|? ? Hx Hrest]; subst.
    destruct (f x); [|discriminate]. by apply IH.
Qed.

Lemma slot_of_item_Raise item e :
  slot_of_item item = Raise e ->
  exists raw,
    (item = raw \/ exists label, item = label +:+ String ":" raw)
    /\ (e = ValueError ("Slot must be 0x-prefixed hex: " +:+ raw)
        \/ e = ValueError ("Invalid slot hex: " +:+ raw)).
Proof.
  assert (forall raw e, parse_slot_hex raw = Raise e ->
            e = ValueError ("Slot must be 0x-prefixed hex: " +:+ raw)
            \/ e = ValueError ("Invalid slot hex: " +:+ raw)) as Hmsg.
  { intros raw e'. unfold parse_slot_hex. cbv zeta.
    destruct (negb _); [intros [= <-]; by left|].
    destruct (PyInt.int16 _); [discriminate|intros [= <-]; by right]. }
  unfold slot_of_item. destruct (PyStr.split_once ":" item) as [[l r]|] eqn:E.
  - apply split_once_Some in E as [-> _].
    destruct (parse_slot_hex r) eqn:Hr; [discriminate|]. intros [= <-].
    exists r. split; [right; eauto|by apply Hmsg].
  - destruct (parse_slot_hex item) eqn:Hr; [discriminate|]. intros [= <-].
    exists item. split; [by left|by apply Hmsg].
Qed.

(** Property X7.  [parse_slots] stops at the first malformed [--slot]
    item: when the items before it all parse, the exception raised is the
    one of that item, whatever follows it; it is a [ValueError] whose text
    names the hexadecimal part of the item, and no file is opened. *)
Theorem parse_slots_first_error (w : world) (args : Args) (t : trace)
    (l1 l2 : list string) (bad : string) (e : exn) :
  slot args = Some (l1 ++ bad :: l2) ->
  Forall (fun item => is_ok (slot_of_item item) = true) l1 ->
  slot_of_item bad = Raise e ->
  parse_slots w args t = (inr (Exception e), t)
  /\ exists raw,
       (bad = raw \/ exists label, bad = label +:+ String ":" raw)
       /\ (e = ValueError ("Slot must be 0x-prefixed hex: " +:+ raw)
           \/ e = ValueError ("Invalid slot hex: " +:+ raw)).
Proof.
  intros Hs Hall Hbad. split; [|by apply slot_of_item_Raise].
  rewrite (parse_slots_flags w args t _ Hs); [|by destruct l1].
  by rewrite (append_each_Raise slot_of_item l1 bad l2 e [] Hall Hbad).
Qed.

Lemma parse_slots_first_error_witness :
  parse_slots quiet_world (args_of_slots ["a:0x1"; "b:12"; "c:zz"]) []
  = (inr (Exception (ValueError "Slot must be 0x-prefixed hex: 12")), []).
Proof.
  apply (parse_slots_first_error quiet_world (args_of_slots ["a:0x1"; "b:12"; "c:zz"]) []
           ["a:0x1"] ["c:zz"] "b:12" _ eq_refl).
  - repeat constructor.
  - reflexivity.
Defined.

(** ** Runs of [main] *)

Section Runs.
Variables (w : world) (args : Args).
Hypothesis Hua : url_ok (rpc_a args) = true.
Hypothesis Hub : url_ok (rpc_b args) = true.
Hypothesis Hadr : w_is_address w (address args) = true.

(** A run whose inputs are valid and whose endpoints are connected. *)
Lemma run_connected slots t1 :
  parse_slots w args [] = (inl slots, t1) ->
  w_connected w EndA = true -> w_connected w EndB = true ->
  exists a_vals b_vals,
    read_slots w EndA (w_checksum w (address args)) (block_a args) slots
      (t1 ++ [EConnect EndA; EConnect EndB])
    = (inl a_vals,
       (t1 ++ [EConnect EndA; EConnect EndB])
       ++ map (read_event EndA (w_checksum w (address args)) (block_a args)) slots)
    /\ read_slots w EndB (w_checksum w (address args)) (block_b args) slots
         ((t1 ++ [EConnect EndA; EConnect EndB])
          ++ map (read_event EndA (w_checksum w (address args)) (block_a args)) slots)
       = (inl b_vals,
          ((t1 ++ [EConnect EndA; EConnect EndB])
           ++ map (read_event EndA (w_checksum w (address args)) (block_a args)) slots)
          ++ map (read_event EndB (w_checksum w (address args)) (block_b args)) slots)
    /\ run w args
       = (inr (SystemExit (if Nat.eqb (report_loop slots a_vals b_vals [] 0).2 0
                           then 0 else 2)),
          ((t1 ++ [EConnect EndA; EConnect EndB])
           ++ map (read_event EndA (w_checksum w (address args)) (block_a args)) slots)
          ++ map (read_event EndB (w_checksum w (address args)) (block_b args)) slots).
Proof.
  intros Hp Hca Hcb.
  destruct (read_slots_loop_total w EndA (w_checksum w (address args)) (block_a args)
              slots ∅ (t1 ++ [EConnect EndA; EConnect EndB])) as [a_vals Ha].
  destruct (read_slots_loop_total w EndB (w_checksum w (address args)) (block_b args)
              slots ∅ ((t1 ++ [EConnect EndA; EConnect EndB])
                       ++ map (read_event EndA (w_checksum w (address args)) (block_a args))
                            slots)) as [b_vals Hb].
  exists a_vals, b_vals. split; [exact Ha|]. split; [exact Hb|].
  rewrite main_steps, Hua, Hub, Hadr, Hp, Hca, Hcb. cbn [negb].
  rewrite <- app_assoc. simpl app. unfold read_slots. by rewrite Ha, Hb.
Qed.

End Runs.

(** Property X8.  An empty manifest is accepted: when no [--slot] is
    given and the manifest loads as an empty array or an empty object, a run
    with valid URLs and address and two connected endpoints reads no storage
    word and exits with 0. *)
Theorem main_empty_manifest (w : world) (args : Args) (path : string) :
  url_ok (rpc_a args) = true -> url_ok (rpc_b args) = true ->
  w_is_address w (address args) = true ->
  truthy_list (slot args) = false ->
  manifest args = Some path -> path <> EmptyString ->
  w_load w path = Some (JList []) \/ w_load w path = Some (JDict []) ->
  w_connected w EndA = true -> w_connected w EndB = true ->
  run w args = (inr (SystemExit 0), [EOpen path; EConnect EndA; EConnect EndB]).
Proof.
  intros Hua Hub Hadr Hs Hm Hne Hload Hca Hcb.
  assert (parse_slots w args [] = (inl [], [EOpen path])) as Hp.
  { rewrite (parse_slots_manifest w args [] path Hs Hm Hne).
    by destruct Hload as [-> | ->]. }
  destruct (run_connected w args Hua Hub Hadr [] _ Hp Hca Hcb) as (a & b & _ & _ & ->).
  reflexivity.
Qed.

Lemma main_empty_manifest_witness :
  run (manifest_world (JDict [])) (args_of_manifest "slots.json")
  = (inr (SystemExit 0), [EOpen "slots.json"; EConnect EndA; EConnect EndB]).
Proof.
  apply (main_empty_manifest (manifest_world (JDict [])) (args_of_manifest "slots.json")
           "slots.json"); try reflexivity.
  - discriminate.
  - by right.
Defined.

(** Property X9.  The effects of a complete run, in order: the manifest
    is opened if [parse_slots] opened it, endpoint A is probed, then endpoint
    B, then every slot is read from A in input order, then every slot from B,
    each read at the checksummed address and at the block of its endpoint.
    Each endpoint is read once per slot. *)
Theorem main_trace (w : world) (args : Args) (slots : list Slot) (t1 : trace) :
  url_ok (rpc_a args) = true -> url_ok (rpc_b args) = true ->
  w_is_address w (address args) = true ->
  parse_slots w args [] = (inl slots, t1) ->
  w_connected w EndA = true -> w_connected w EndB = true ->
  (run w args).2
  = t1 ++ [EConnect EndA; EConnect EndB]
       ++ map (read_event EndA (w_checksum w (address args)) (block_a args)) slots
       ++ map (read_event EndB (w_checksum w (address args)) (block_b args)) slots
  /\ length (filter (fun e => is_read e = true) (run w args).2) = (2 * length slots)%nat.
Proof.
  intros Hua Hub Hadr Hp Hca Hcb.
  destruct (run_connected w args Hua Hub Hadr slots t1 Hp Hca Hcb) as (a & b & _ & _ & ->).
  simpl snd. split; [by rewrite <- !app_assoc|].
  assert (filter (fun e => is_read e = true) t1 = []) as Ht1.
  { destruct (parse_slots_trace w args [] _ _ Hp) as [[->|[path ->]] _]; reflexivity. }
  assert (forall s addr blk (l : list Slot),
            filter (fun e => is_read e = true) (map (read_event s addr blk) l)
            = map (read_event s addr blk) l) as Hreads.
  { intros s addr blk l. induction l as [|x l IH]; [done|].
    simpl. rewrite filter_cons. simpl. by rewrite IH. }
  unfold trace in *. rewrite !filter_app, Ht1, !Hreads. simpl.
  rewrite length_app, !length_map. lia.
Qed.

Lemma main_trace_witness :
  (run sample_world (args_of_slots ["p:0x0"; "q:0x2"])).2
  = [EConnect EndA; EConnect EndB;
     ERead EndA "0x0000000000000000000000000000000000000000" 0 "latest";
     ERead EndA "0x0000000000000000000000000000000000000000" 2 "latest";
     ERead EndB "0x0000000000000000000000000000000000000000" 0 "latest";
     ERead EndB "0x0000000000000000000000000000000000000000" 2 "latest"].
Proof.
  apply (proj1 (main_trace sample_world (args_of_slots ["p:0x0"; "q:0x2"])
                  [("p", 0); ("q", 2)] [] eq_refl eq_refl eq_refl eq_refl eq_refl eq_refl)).
Defined.

(** Property X10.  What [main] does not do on a failure.  With a bad URL
    or a bad address it exits with 1 before any effect: the manifest is not
    opened and no endpoint is contacted.  When [parse_slots] raises, no
    endpoint is probed or read.  When endpoint A is not connected, endpoint B
    is not probed. *)
Theorem main_early_exit (w : world) (args : Args) :
  (url_ok (rpc_a args) = false \/ url_ok (rpc_b args) = false
   \/ w_is_address w (address args) = false ->
   run w args = (inr (SystemExit 1), []))
  /\ (forall r t1,
        url_ok (rpc_a args) = true -> url_ok (rpc_b args) = true ->
        w_is_address w (address args) = true ->
        parse_slots w args [] = (inr r, t1) ->
        run w args = (inr (SystemExit 1), t1)
        /\ Forall (fun e => is_connect e = false /\ is_read e = false) t1)
  /\ (forall slots t1,
        url_ok (rpc_a args) = true -> url_ok (rpc_b args) = true ->
        w_is_address w (address args) = true ->
        parse_slots w args [] = (inl slots, t1) ->
        w_connected w EndA = false ->
        run w args = (inr (SystemExit 1), t1 ++ [EConnect EndA])).
Proof.
  split; [|split].
  - intros Hbad. rewrite main_steps.
    destruct (url_ok (rpc_a args)); [|reflexivity].
    destruct (url_ok (rpc_b args)); [|reflexivity].
    destruct (w_is_address w (address args)); [|reflexivity].
    destruct Hbad as [?|[?|?]]; discriminate.
  - intros r t1 Hua Hub Hadr Hp. rewrite main_steps, Hua, Hub, Hadr, Hp. cbn [negb].
    split; [reflexivity|].
    destruct (parse_slots_trace w args [] _ _ Hp) as [[->|[path ->]] _]; repeat constructor.
  - intros slots t1 Hua Hub Hadr Hp Hca.
    by rewrite main_steps, Hua, Hub, Hadr, Hp, Hca.
Qed.

Lemma main_early_exit_witness :
  run (manifest_world (JList [JInt 5])) (args_of_manifest "slots.json")
  = (inr (SystemExit 1), [EOpen "slots.json"]).
Proof.
  apply (proj1 (proj2 (main_early_exit (manifest_world (JList [JInt 5]))
                         (args_of_manifest "slots.json")))
           (Exception AttributeError) [EOpen "slots.json"]); reflexivity.
Defined.

(** Property X11.  [main] always ends in [sys.exit], and its exit code is
    0, 1 or 2: no exception leaves it. *)
Theorem main_exit_codes (w : world) (args : Args) :
  exists code,
    fst (run w args) = inr (SystemExit code) /\ (code = 0 \/ code = 1 \/ code = 2).
Proof.
  rewrite main_steps.
  destruct (url_ok (rpc_a args)); cbn [negb]; [|exists 1; split; [done|lia]].
  destruct (url_ok (rpc_b args)); cbn [negb]; [|exists 1; split; [done|lia]].
  destruct (w_is_address w (address args)); cbn [negb]; [|exists 1; split; [done|lia]].
  destruct (parse_slots w args []) as [[slots|r] t1]; [|exists 1; split; [done|lia]].
  destruct (w_connected w EndA); cbn [negb]; [|exists 1; split; [done|lia]].
  destruct (w_connected w EndB); cbn [negb]; [|exists 1; split; [done|lia]].
  unfold read_slots.
  destruct (read_slots_loop_total w EndA (w_checksum w (address args)) (block_a args)
              slots ∅ ((t1 ++ [EConnect EndA]) ++ [EConnect EndB])) as [a ->].
  destruct (read_slots_loop_total w EndB (w_checksum w (address args)) (block_b args)
              slots ∅ (((t1 ++ [EConnect EndA]) ++ [EConnect EndB])
                       ++ map (read_event EndA (w_checksum w (address args)) (block_a args))
                            slots)) as [b ->].
  destruct (Nat.eqb _ 0); [exists 0|exists 2]; (split; [done|lia]).
Qed.

(** ** More on [compare] *)

Section CompareMore.
Variables a b : gmap string string.

Lemma compare_ok_iff :
  (compare a b).2 = true <-> forall k, get a k MISSING = get b k MISSING.
Proof.
  rewrite compare_ok, bool_decide_eq_true. split.
  - intros Hnil k.
    destruct (decide (get a k MISSING = get b k MISSING)) as [|Hd]; [done|].
    destruct (decide (k ∈ dom a ∪ dom b)) as [Hin|Hout].
    + exfalso. apply (filter_nil_not_elem_of _ _ k Hnil Hd).
      by apply elem_of_sorted_keys.
    + apply not_elem_of_union in Hout as [Ha Hb].
      apply not_elem_of_dom in Ha, Hb. unfold get. by rewrite Ha, Hb.
  - intros Hall. destruct (filter _ _) as [|k l] eqn:E; [done|].
    assert (k ∈ filter (differs a b) (sorted (elements (dom a ∪ dom b)))) as Hk
      by (rewrite E; left).
    apply list_elem_of_filter in Hk as [Hd _]. by specialize (Hall k).
Qed.

End CompareMore.

(** Property X12.  Comparing a map with itself finds nothing: the
    mismatch list is empty and the boolean is true. *)
Theorem compare_refl (a : gmap string string) : compare a a = ([], true).
Proof.
  assert ((compare a a).2 = true) as Hok by (by apply compare_ok_iff).
  pose proof (compare_diffs a a) as Hd. pose proof (compare_ok a a) as Ho.
  rewrite Hok in Ho. symmetry in Ho. apply bool_decide_eq_true in Ho.
  rewrite Ho in Hd. destruct (compare a a) as [d o]. simpl in *. by subst.
Qed.

(** Property X13.  Exchanging the two maps exchanges the two values of
    every mismatch and changes nothing else: same labels in the same order,
    same boolean. *)
Theorem compare_sym (a b : gmap string string) :
  compare b a = (flip_diff <$> (compare a b).1, (compare a b).2).
Proof.
  assert (filter (differs b a) (sorted (elements (dom b ∪ dom a)))
          = filter (differs a b) (sorted (elements (dom a ∪ dom b)))) as Hf.
  { rewrite (union_comm_L (dom b) (dom a)). apply list_filter_iff.
    intros k. unfold differs. split; intros H E; by apply H. }
  apply injective_projections.
  - rewrite !compare_diffs, Hf. simpl. rewrite <- list_fmap_compose.
    apply list_fmap_ext. by intros i k _.
  - rewrite !compare_ok, Hf. reflexivity.
Qed.

(** Property X14.  For two maps with the same keys, the boolean of
    [compare] is true exactly when the maps are equal. *)
Theorem compare_ok_eq (a b : gmap string string) :
  dom a = dom b -> ((compare a b).2 = true <-> a = b).
Proof.
  intros Hdom. rewrite compare_ok_iff. split.
  - intros Hall. apply map_eq. intros k. specialize (Hall k). unfold get in Hall.
    destruct (a !! k) as [va|] eqn:Ha.
    + assert (is_Some (b !! k)) as [vb Hb].
      { apply elem_of_dom. rewrite <- Hdom. apply elem_of_dom. eauto. }
      rewrite Hb in *. simpl in Hall. by subst.
    + apply not_elem_of_dom in Ha. rewrite Hdom in Ha.
      by apply not_elem_of_dom in Ha as ->.
  - by intros ->.
Qed.

Lemma compare_ok_eq_witness :
  (compare {[ "x" := "0x1" ]} {[ "x" := "0x2" ]}).2 = true
  <-> ({[ "x" := "0x1" ]} : gmap string string) = {[ "x" := "0x2" ]}.
Proof.
  apply (compare_ok_eq {[ "x" := "0x1" ]} {[ "x" := "0x2" ]}).
  by rewrite !dom_singleton_L.
Defined.

(** Property X15.  The boolean of [compare] is true exactly when every
    label has the same value in both maps, an absent key counting as
    ["MISSING"]; so a key absent on one side and stored as the text
    ["MISSING"] on the other is not reported. *)
Theorem compare_sentinel (a b : gmap string string) :
  ((compare a b).2 = true <-> forall k, get a k MISSING = get b k MISSING)
  /\ (forall k, a !! k = Some MISSING -> b !! k = None ->
        forall va vb, (k, va, vb) ∉ (compare a b).1).
Proof.
  split; [apply compare_ok_iff|].
  intros k Ha Hb va vb Hin. rewrite compare_diffs in Hin.
  apply list_elem_of_fmap in Hin as (k' & [= -> _ _] & [Hd _]%list_elem_of_filter).
  apply Hd. unfold get. by rewrite Ha, Hb.
Qed.

Lemma compare_sentinel_witness :
  (("x", "MISSING", "MISSING") ∉ (compare {[ "x" := "MISSING" ]} ∅).1)
  /\ (compare {[ "x" := "MISSING" ]} ∅).2 = true.
Proof.
  split.
  - apply (proj2 (compare_sentinel {[ "x" := "MISSING" ]} ∅) "x"); reflexivity.
  - apply (proj1 (compare_sentinel {[ "x" := "MISSING" ]} ∅)).
    intros k. unfold get. destruct (decide (k = "x")) as [->|Hne]; [reflexivity|].
    by rewrite lookup_singleton_ne, lookup_empty.
Defined.

(** ** More on the display loop *)

Lemma filter_status_lines (a b : gmap string string) (slots : list Slot) :
  length (filter (differs a b) (labels slots))
  = length (filter (fun l : string * string * string * bool => l.2 = false)
                   (line_of a b <$> slots)).
Proof.
  induction slots as [|[lbl idx] rest IH]; [done|].
  unfold labels in *. rewrite !fmap_cons, !filter_cons. simpl.
  destruct (decide (differs a b lbl)) as [Hd|Hd].
  - rewrite bool_decide_eq_false_2 by exact Hd.
    destruct (decide (false = false)); [|done]. simpl. by rewrite IH.
  - unfold differs in Hd. apply dec_stable in Hd.
    rewrite bool_decide_eq_true_2 by exact Hd.
    destruct (decide (true = false)); [done|exact IH].
Qed.

(** Property X16.  The display loop prints one line per slot, in input
    order and with the slot's label; a line is marked as a match exactly when
    its two values are equal; the mismatch count is the number of lines
    marked as different, and it does not exceed the number of slots. *)
Theorem report_loop_lines (slots : list Slot) (a b : gmap string string) :
  (fun l : string * string * string * bool => l.1.1.1) <$> (report_loop slots a b [] 0).1
    = labels slots
  /\ Forall (fun l : string * string * string * bool => l.2 = true <-> l.1.1.2 = l.1.2)
            (report_loop slots a b [] 0).1
  /\ (report_loop slots a b [] 0).2
     = length (filter (fun l : string * string * string * bool => l.2 = false)
                      (report_loop slots a b [] 0).1)
  /\ ((report_loop slots a b [] 0).2 <= length slots)%nat.
Proof.
  rewrite report_loop_spec. simpl. split; [|split; [|split]].
  - unfold labels. rewrite <- list_fmap_compose. by apply list_fmap_ext.
  - apply Forall_fmap, Forall_forall. intros s _. unfold compose, line_of. simpl.
    apply bool_decide_eq_true.
  - apply filter_status_lines.
  - etrans; [apply length_filter|]. unfold labels. by rewrite length_fmap.
Qed.

(** Property X17.  Whatever the labels, repeated or not, the test
    [mismatches == 0] of [main] has the value of the boolean of [compare] on
    the two maps read, and the mismatch list of [compare] is never longer
    than the mismatch count of [main]. *)
Theorem mismatches_cover (w : world) (addr block_a block_b : string)
    (slots : list Slot) (ta ta' tb tb' : trace) (a b : gmap string string) :
  read_slots w EndA addr block_a slots ta = (inl a, ta') ->
  read_slots w EndB addr block_b slots tb = (inl b, tb') ->
  Nat.eqb (report_loop slots a b [] 0).2 0 = (compare a b).2
  /\ (length (compare a b).1 <= (report_loop slots a b [] 0).2)%nat.
Proof.
  intros Ha%read_slots_dom Hb%read_slots_dom. split; [by apply report_loop_ok|].
  rewrite report_loop_spec, compare_diffs, length_fmap. simpl.
  apply submseteq_length, NoDup_submseteq.
  - apply NoDup_filter, NoDup_sorted_keys.
  - intros k [Hd Hin]%list_elem_of_filter. apply list_elem_of_filter. split; [exact Hd|].
    apply elem_of_sorted_keys in Hin. rewrite Ha, Hb in Hin.
    apply elem_of_union in Hin. rewrite !elem_of_list_to_set in Hin. tauto.
Qed.

Lemma mismatches_cover_witness :
  exists a b,
    Nat.eqb (report_loop [("q", 2); ("q", 2)] a b [] 0).2 0 = (compare a b).2
    /\ Nat.le (length (compare a b).1) (report_loop [("q", 2); ("q", 2)] a b [] 0).2
    /\ (report_loop [("q", 2); ("q", 2)] a b [] 0).2 = 2%nat
    /\ length (compare a b).1 = 1%nat.
Proof.
  destruct (read_slots_loop_total sample_world EndA "0xabc" "latest"
              [("q", 2); ("q", 2)] ∅ []) as [a Ha].
  destruct (read_slots_loop_total sample_world EndB "0xabc" "latest"
              [("q", 2); ("q", 2)] ∅ []) as [b Hb].
  exists a, b.
  destruct (mismatches_cover sample_world "0xabc" "latest" "latest"
              [("q", 2); ("q", 2)] [] _ [] _ a b Ha Hb) as [Hok Hle].
  split; [exact Hok|]. split; [exact Hle|].
  injection Ha as <-. injection Hb as <-. split; vm_compute; reflexivity.
Defined.

(** ** Answers and exit code *)

Section Answers.
Variables (w : world) (w3 : side) (addr block_id : string).

Lemma read_slots_loop_last l1 label idx l2 out t out' t' :
  label ∉ labels l2 ->
  read_slots_loop w w3 addr block_id (l1 ++ (label, idx) :: l2) out t = (inl out', t') ->
  out' !! label
  = Some (render (w_storage w (t ++ map (read_event w3 addr block_id) l1)
                    w3 addr idx block_id)).
Proof.
  intros Hnotin H.
  destruct (read_slots_loop_past w w3 addr block_id l1 label idx out t) as (out1 & H1 & Hl).
  rewrite (cons_middle (label, idx) l1 l2), app_assoc in H.
  rewrite (read_slots_loop_app _ _ _ _ _ _ _ _ _ _ H1) in H.
  by rewrite (read_slots_loop_lookup_notin _ _ _ _ _ _ _ _ _ _ Hnotin H).
Qed.

Lemma last_occurrence (slots : list Slot) k :
  k ∈ labels slots ->
  exists l1 idx l2, slots = l1 ++ (k, idx) :: l2 /\ k ∉ labels l2.
Proof.
  induction slots as [|[l i] rest IH]; [by intros ?%elem_of_nil|].
  intros Hin. destruct (decide (k ∈ labels rest)) as [Hr|Hr].
  - destruct (IH Hr) as (l1 & idx & l2 & -> & Hn).
    exists ((l, i) :: l1), idx, l2. done.
  - unfold labels in Hin. rewrite fmap_cons in Hin.
    apply elem_of_cons in Hin as [->|Hin]; [|done].
    exists [], i, rest. done.
Qed.

End Answers.

Lemma read_slots_loop_stateless w addr block_id slots :
  stateless w ->
  forall s s' out t t',
    (read_slots_loop w s addr block_id slots out t).1
    = (read_slots_loop w s' addr block_id slots out t').1.
Proof.
  intros Hw. induction slots as [|[label idx] rest IH]; intros s s' out t t'; [done|].
  rewrite !read_slots_loop_cons.
  rewrite (Hw t t' s s' addr idx block_id). apply IH.
Qed.

(** Property X18.  Comparing an endpoint with itself is sound: when the
    answers to a read depend neither on the endpoint nor on what was read
    before, and both endpoints are read at the same block, a run with valid
    inputs and connected endpoints exits with 0 -- also when every read
    fails, since two equal error markers count as a match. *)
Theorem main_self_comparison (w : world) (args : Args) (slots : list Slot) (t1 : trace) :
  stateless w -> block_a args = block_b args ->
  url_ok (rpc_a args) = true -> url_ok (rpc_b args) = true ->
  w_is_address w (address args) = true ->
  parse_slots w args [] = (inl slots, t1) ->
  w_connected w EndA = true -> w_connected w EndB = true ->
  exit_code (run w args) = 0.
Proof.
  intros Hw Hblk Hua Hub Hadr Hp Hca Hcb.
  destruct (run_connected w args Hua Hub Hadr slots t1 Hp Hca Hcb)
    as (a & b & Ha & Hb & ->).
  assert (a = b) as <-.
  { pose proof (read_slots_loop_stateless w (w_checksum w (address args)) (block_a args)
                  slots Hw EndA EndB ∅
                  (t1 ++ [EConnect EndA; EConnect EndB])
                  ((t1 ++ [EConnect EndA; EConnect EndB])
                   ++ map (read_event EndA (w_checksum w (address args)) (block_a args))
                        slots)) as E.
    unfold read_slots in Ha, Hb. rewrite <- Hblk in Hb. rewrite Ha, Hb in E.
    simpl in E. by injection E. }
  pose proof (read_slots_dom _ _ _ _ _ _ _ _ Ha) as Hd.
  unfold exit_code. simpl fst.
  rewrite (mismatches_zero a a slots Hd Hd); [reflexivity|].
  by apply Forall_forall.
Qed.

Lemma main_self_comparison_witness :
  exit_code (run dead_world (args_of_slots ["p:0x0"; "q:0x1"])) = 0.
Proof.
  apply (main_self_comparison dead_world (args_of_slots ["p:0x0"; "q:0x1"])
           [("p", 0); ("q", 1)] []); try reflexivity.
  by intros t t' s s' addr idx block_id.
Defined.

(** Property X19.  A difference at one slot decides the exit code: when,
    for the last slot carrying some label, what the two endpoints answer
    shows differently in the maps (two different values, or a failure on one
    side and a value on the other), a run with valid inputs and connected
    endpoints exits with 2. *)
Theorem main_answers_differ (w : world) (args : Args) (t1 : trace)
    (l1 l2 : list Slot) (label : string) (idx : Z) (ra rb : response) :
  url_ok (rpc_a args) = true -> url_ok (rpc_b args) = true ->
  w_is_address w (address args) = true ->
  parse_slots w args [] = (inl (l1 ++ (label, idx) :: l2), t1) ->
  w_connected w EndA = true -> w_connected w EndB = true ->
  label ∉ labels l2 ->
  w_storage w
    ((t1 ++ [EConnect EndA; EConnect EndB])
     ++ map (read_event EndA (w_checksum w (address args)) (block_a args)) l1)
    EndA (w_checksum w (address args)) idx (block_a args) = ra ->
  w_storage w
    (((t1 ++ [EConnect EndA; EConnect EndB])
      ++ map (read_event EndA (w_checksum w (address args)) (block_a args))
           (l1 ++ (label, idx) :: l2))
     ++ map (read_event EndB (w_checksum w (address args)) (block_b args)) l1)
    EndB (w_checksum w (address args)) idx (block_b args) = rb ->
  render ra <> render rb ->
  exit_code (run w args) = 2.
Proof.
  intros Hua Hub Hadr Hp Hca Hcb Hnotin Hra Hrb Hne.
  destruct (run_connected w args Hua Hub Hadr _ t1 Hp Hca Hcb) as (a & b & Ha & Hb & ->).
  pose proof (read_slots_dom _ _ _ _ _ _ _ _ Ha) as Hda.
  pose proof (read_slots_dom _ _ _ _ _ _ _ _ Hb) as Hdb.
  unfold read_slots in Ha, Hb.
  pose proof (read_slots_loop_last _ _ _ _ _ _ _ _ _ _ _ _ Hnotin Ha) as Hla.
  pose proof (read_slots_loop_last _ _ _ _ _ _ _ _ _ _ _ _ Hnotin Hb) as Hlb.
  rewrite Hra in Hla. rewrite Hrb in Hlb.
  assert ((report_loop (l1 ++ (label, idx) :: l2) a b [] 0).2 <> 0%nat) as Hn.
  { apply (mismatches_positive a b _ Hda Hdb).
    apply Exists_exists. exists (label, idx). split.
    - apply elem_of_app. right. left.
    - simpl. rewrite Hla, Hlb. congruence. }
  unfold exit_code. simpl fst.
  by destruct (report_loop (l1 ++ (label, idx) :: l2) a b [] 0).2.
Qed.

Lemma main_answers_differ_witness :
  exit_code (run half_dead_world (args_of_slots ["p:0x0"])) = 2.
Proof.
  apply (main_answers_differ half_dead_world (args_of_slots ["p:0x0"]) []
           [] [] "p" 0 (Failure "timeout") (Value "0x00")); try reflexivity.
  - intros []%elem_of_nil.
  - discriminate.
Defined.

(** Property X20.  The map [read_slots] returns has one entry per
    distinct label: never more entries than slots, and as many as slots when
    the labels are pairwise distinct. *)
Theorem read_slots_size (w : world) (w3 : side) (addr block_id : string)
    (slots : list Slot) (t t' : trace) (out : gmap string string) :
  read_slots w w3 addr block_id slots t = (inl out, t') ->
  size out = size (list_to_set (labels slots) : gset string)
  /\ (size out <= length slots)%nat
  /\ (NoDup (labels slots) -> size out = length slots).
Proof.
  intros Hd%read_slots_dom.
  assert (size out = size (list_to_set (labels slots) : gset string)) as Hs
    by (by rewrite <- Hd, size_dom).
  split; [exact Hs|]. split.
  - rewrite Hs. unfold size, set_size. simpl.
    replace (length slots) with (length (labels slots))
      by (unfold labels; apply length_fmap).
    apply submseteq_length, NoDup_submseteq; [apply NoDup_elements|].
    intros k Hk. by apply elem_of_elements, elem_of_list_to_set in Hk.
  - intros Hnd. rewrite Hs, (size_list_to_set _ Hnd). unfold labels. apply length_fmap.
Qed.

Lemma read_slots_size_witness :
  exists out,
    read_slots sample_world EndA "0xabc" "latest" [("a", 0); ("b", 1); ("a", 2)] []
    = (inl out, [ERead EndA "0xabc" 0 "latest"; ERead EndA "0xabc" 1 "latest";
                 ERead EndA "0xabc" 2 "latest"])
    /\ size out = 2%nat.
Proof.
  destruct (read_slots_loop_total sample_world EndA "0xabc" "latest"
              [("a", 0); ("b", 1); ("a", 2)] ∅ []) as [out Hout].
  exists out. split; [exact Hout|].
  rewrite (proj1 (read_slots_size sample_world EndA "0xabc" "latest"
                    [("a", 0); ("b", 1); ("a", 2)] [] _ out Hout)).
  vm_compute. reflexivity.
Defined.

(** Property X21.  Nothing else gets into the map: every value
    [read_slots] returns under a label is what the endpoint answered to the
    read of the last slot carrying that label -- the hexadecimal text of the
    storage word, or ["ERROR:"] followed by the failure text. *)
Theorem read_slots_values (w : world) (w3 : side) (addr block_id : string)
    (slots : list Slot) (t t' : trace) (out : gmap string string) (k v : string) :
  read_slots w w3 addr block_id slots t = (inl out, t') ->
  out !! k = Some v ->
  exists l1 idx l2,
    slots = l1 ++ (k, idx) :: l2 /\ (k ∉ labels l2)
    /\ v = render (w_storage w (t ++ map (read_event w3 addr block_id) l1)
                     w3 addr idx block_id)
    /\ ((exists hex, w_storage w (t ++ map (read_event w3 addr block_id) l1)
                       w3 addr idx block_id = Value hex /\ v = hex)
        \/ exists msg, v = "ERROR:" +:+ msg).
Proof.
  intros Hout Hk.
  assert (k ∈ labels slots) as Hin.
  { apply (elem_of_list_to_set (C:=gset string)).
    rewrite <- (read_slots_dom _ _ _ _ _ _ _ _ Hout). apply elem_of_dom. eauto. }
  destruct (last_occurrence slots k Hin) as (l1 & idx & l2 & -> & Hnotin).
  exists l1, idx, l2. split; [done|]. split; [done|].
  unfold read_slots in Hout.
  pose proof (read_slots_loop_last _ _ _ _ _ _ _ _ _ _ _ _ Hnotin Hout) as Hl.
  rewrite Hk in Hl. injection Hl as ->. split; [done|].
  destruct (w_storage w _ w3 addr idx block_id) as [hex|msg]; simpl; eauto.
Qed.

Lemma read_slots_values_witness :
  exists (l1 l2 : list Slot) (idx : Z),
    [("a", 0); ("b", 1)] = l1 ++ ("b", idx) :: l2
    /\ "ERROR:timeout"
       = render (w_storage sample_world ([] ++ map (read_event EndA "0xabc" "latest") l1)
                   EndA "0xabc" idx "latest").
Proof.
  destruct (read_slots_loop_total sample_world EndA "0xabc" "latest"
              [("a", 0); ("b", 1)] ∅ []) as [out Hout].
  assert (out !! "b" = Some "ERROR:timeout") as Hb
    by (injection Hout as <-; vm_compute; reflexivity).
  destruct (read_slots_values sample_world EndA "0xabc" "latest" [("a", 0); ("b", 1)]
              [] _ out "b" "ERROR:timeout" Hout Hb) as (l1 & idx & l2 & Hs & _ & Hv & _).
  exists l1, l2, idx. split; [exact Hs|exact Hv].
Defined.

(** Property X22.  The entries of a manifest are not checked before use:
    an array whose earlier elements parse and whose next element is not a
    string (a number, [null], a nested array ...) makes [parse_slots] raise an
    [AttributeError] after opening the file, and [main] exit with 1 without
    probing an endpoint. *)
Theorem manifest_non_string (w : world) (args : Args) (path : string)
    (l1 l2 : list json) (bad : json) :
  truthy_list (slot args) = false ->
  manifest args = Some path -> path <> EmptyString ->
  w_load w path = Some (JList (l1 ++ bad :: l2)) ->
  Forall (fun x => is_ok (slot_of_element x) = true) l1 ->
  (forall text, bad <> JStr text) ->
  parse_slots w args [] = (inr (Exception AttributeError), [EOpen path])
  /\ (url_ok (rpc_a args) = true -> url_ok (rpc_b args) = true ->
      w_is_address w (address args) = true ->
      run w args = (inr (SystemExit 1), [EOpen path])).
Proof.
  intros Hs Hm Hne Hload Hall Hbad.
  assert (parse_slots w args [] = (inr (Exception AttributeError), [EOpen path])) as Hp.
  { rewrite (parse_slots_manifest w args [] path Hs Hm Hne), Hload.
    rewrite (append_each_Raise slot_of_element l1 bad l2 AttributeError [] Hall);
      [reflexivity|].
    destruct bad; try reflexivity. by destruct (Hbad s). }
  split; [exact Hp|].
  intros Hua Hub Hadr. by rewrite main_steps, Hua, Hub, Hadr, Hp.
Qed.

Lemma manifest_non_string_witness :
  parse_slots (manifest_world (JList [JStr "0x1"; JNull; JStr "zz"]))
    (args_of_manifest "slots.json") []
  = (inr (Exception AttributeError), [EOpen "slots.json"]).
Proof.
  apply (manifest_non_string (manifest_world (JList [JStr "0x1"; JNull; JStr "zz"]))
           (args_of_manifest "slots.json") "slots.json" [JStr "0x1"] [JStr "zz"] JNull);
    try reflexivity; try discriminate.
  repeat constructor.
Defined.
